(** * A* / weighted A* / greedy best-first search (search/a_star.py)

    Shallow embedding of [astar_search] and its ordering policies.  The
    planning task, the heuristic and the ordering policy are parameters.
    Heuristic values are natural numbers extended with [Inf], the value
    [float("inf")] of the source.  The Python [heapq] frontier is a list of
    entries from which the lexicographically least entry is removed, which is
    what [heapq.heappop] returns.  The [while open:] loop is run for at most
    [fuel] iterations; [OutOfFuel] means the loop had not finished yet.  The
    logging-only variables [besth], [counter] and [expansions] are omitted:
    nothing the function returns depends on them. *)

From Stdlib Require Import List Arith Lia Bool PArith Permutation.
Import ListNotations.

(** ** Extended naturals: heuristic values and priority keys *)

Inductive ext : Type :=
| Fin (n : nat)
| Inf.

Definition ext_add (a b : ext) : ext :=
  match a, b with
  | Fin x, Fin y => Fin (x + y)
  | _, _ => Inf
  end.

(** [weight * h] for a weight [>= 1] *)
Definition ext_scale (w : positive) (a : ext) : ext :=
  match a with
  | Fin x => Fin (Pos.to_nat w * x)
  | Inf => Inf
  end.

Definition ext_eqb (a b : ext) : bool :=
  match a, b with
  | Fin x, Fin y => Nat.eqb x y
  | Inf, Inf => true
  | _, _ => false
  end.

Definition ext_ltb (a b : ext) : bool :=
  match a, b with
  | Fin x, Fin y => Nat.ltb x y
  | Fin _, Inf => true
  | Inf, _ => false
  end.

Definition ext_le (a b : ext) : Prop :=
  match a, b with
  | Fin x, Fin y => x <= y
  | _, Inf => True
  | Inf, Fin _ => False
  end.

(** [h == float("inf")] *)
Definition ext_is_inf (a : ext) : bool :=
  match a with Inf => true | Fin _ => false end.

Definition opt_nat_eq_dec (a b : option nat) : {a = b} + {a <> b}.
Proof. decide equality; apply Nat.eq_dec. Defined.

Section AStar.

Context {St Op : Type}.
Variable St_eq_dec : forall a b : St, {a = b} + {a <> b}.

(** The task collaborator: [task.initial_state], [task.goal_reached],
    [task.get_successor_states]. *)
Record Task : Type := mkTask {
  initial_state : St;
  goal_reached : St -> bool;
  get_successor_states : St -> list (Op * St)
}.

(** Modelled from the spec: the search nodes of searchspace.py (not in the
    sources).  A node is the root for the initial state or a child of a parent
    node reached by an operator; [g] is the number of operators applied. *)
Inductive SearchNode : Type :=
| RootNode (s : St)
| ChildNode (parent : SearchNode) (action : Op) (s : St).

Definition state (n : SearchNode) : St :=
  match n with RootNode s => s | ChildNode _ _ s => s end.

Fixpoint g (n : SearchNode) : nat :=
  match n with RootNode _ => 0 | ChildNode p _ _ => g p + 1 end.

(** Modelled from the spec: [searchspace.make_root_node]. *)
Definition make_root_node (s : St) : SearchNode := RootNode s.

(** Modelled from the spec: [searchspace.make_child_node]. *)
Definition make_child_node (p : SearchNode) (op : Op) (s : St) : SearchNode :=
  ChildNode p op s.

Fixpoint actions_to_root (n : SearchNode) : list Op :=
  match n with
  | RootNode _ => []
  | ChildNode p a _ => a :: actions_to_root p
  end.

(** Modelled from the spec: [SearchNode.extract_solution] walks the parent
    references to the root and reverses the collected operators. *)
Definition extract_solution (n : SearchNode) : list Op :=
  rev (actions_to_root n).

(** A frontier entry [(f, h, node_tiebreaker, node)]. *)
Definition Entry : Type := (ext * ext * nat * SearchNode)%type.

Definition entry_node (e : Entry) : SearchNode :=
  match e with (_, _, _, n) => n end.

Definition ordered_node_astar (node : SearchNode) (h : ext)
    (node_tiebreaker : nat) : Entry :=
  let f := ext_add (Fin (g node)) h in
  (f, h, node_tiebreaker, node).

Definition ordered_node_weighted_astar (weight : positive)
    : SearchNode -> ext -> nat -> Entry :=
  fun node h node_tiebreaker =>
    (ext_add (Fin (g node)) (ext_scale weight h), h, node_tiebreaker, node).

Definition ordered_node_greedy_best_first (node : SearchNode) (h : ext)
    (node_tiebreaker : nat) : Entry :=
  let f := h in
  (f, h, node_tiebreaker, node).

(** Python's tuple comparison [<] on the first three components of an entry
    (the node is never reached: tiebreakers are distinct). *)
Definition entry_ltb (a b : Entry) : bool :=
  match a, b with
  | (f1, h1, t1, _), (f2, h2, t2, _) =>
      ext_ltb f1 f2 ||
      (ext_eqb f1 f2 && (ext_ltb h1 h2 || (ext_eqb h1 h2 && Nat.ltb t1 t2)))
  end.

(** [heapq.heappush]: the frontier is kept as a list. *)
Definition heappush (l : list Entry) (e : Entry) : list Entry := l ++ [e].

(** [heapq.heappop]: remove and return a least entry. *)
Fixpoint heappop (l : list Entry) : option (Entry * list Entry) :=
  match l with
  | [] => None
  | x :: l' =>
      match heappop l' with
      | None => Some (x, [])
      | Some (m, r) => if entry_ltb m x then Some (m, x :: r) else Some (x, l')
      end
  end.

(** The dictionary [state_cost]. *)
Definition CostTable : Type := St -> option nat.

Definition cost_empty : CostTable := fun _ => None.

Definition cost_set (m : CostTable) (k : St) (v : nat) : CostTable :=
  fun s => if St_eq_dec s k then Some v else m s.

Record SearchState : Type := mkSearchState {
  open : list Entry;
  state_cost : CostTable;
  node_tiebreaker : nat
}.

Inductive LoopStep : Type :=
| Continue (st : SearchState)
| Return (result : option (list Op)).

Inductive Outcome : Type :=
| Done (result : option (list Op))
| OutOfFuel.

Section Loop.

Variable task : Task.
Variable heuristic : SearchNode -> ext.
Variable make_open_entry : SearchNode -> ext -> nat -> Entry.

(** One iteration of [for op, new_state in task.get_successor_states(pop_state)]. *)
Definition expand_successor (pop_node : SearchNode) (pop_g : nat)
    (st : SearchState) (succ : Op * St) : SearchState :=
  let (op, new_state) := succ in
  let new_g := pop_g + 1 in
  let neighbor_node := make_child_node pop_node op new_state in
  let h_neighbor := heuristic neighbor_node in
  if ext_is_inf h_neighbor then st
  else if match state_cost st new_state with
          | None => true
          | Some c => Nat.ltb new_g c
          end
  then
    let state_cost' := cost_set (state_cost st) new_state new_g in
    let node_tiebreaker' := node_tiebreaker st + 1 in
    mkSearchState
      (heappush (open st) (make_open_entry neighbor_node h_neighbor node_tiebreaker'))
      state_cost' node_tiebreaker'
  else st.

Definition expand (pop_node : SearchNode) (st : SearchState) : SearchState :=
  fold_left (expand_successor pop_node (g pop_node))
    (get_successor_states task (state pop_node)) st.

(** [state_cost.get(pop_state, float("inf")) < pop_g] *)
Definition is_stale (cost : CostTable) (pop_state : St) (pop_g : nat) : bool :=
  match cost pop_state with
  | Some c => Nat.ltb c pop_g
  | None => false
  end.

(** One iteration of [while open:] (or the exit when [open] is empty). *)
Definition astar_step (st : SearchState) : LoopStep :=
  match heappop (open st) with
  | None => Return None
  | Some ((f, h, _tie, pop_node), rest) =>
      let st1 := mkSearchState rest (state_cost st) (node_tiebreaker st) in
      let pop_state := state pop_node in
      let pop_g := g pop_node in
      if is_stale (state_cost st1) pop_state pop_g then Continue st1
      else if goal_reached task pop_state
      then Return (Some (extract_solution pop_node))
      else Continue (expand pop_node st1)
  end.

Fixpoint astar_loop (fuel : nat) (st : SearchState) : Outcome :=
  match fuel with
  | 0 => OutOfFuel
  | S fuel' =>
      match astar_step st with
      | Return r => Done r
      | Continue st' => astar_loop fuel' st'
      end
  end.

Definition init_search_state : SearchState :=
  let root := make_root_node (initial_state task) in
  let state_cost := cost_set cost_empty (initial_state task) 0 in
  let node_tiebreaker := 0 in
  let init_h := heuristic root in
  mkSearchState (heappush [] (make_open_entry root init_h node_tiebreaker))
    state_cost node_tiebreaker.

End Loop.

(** [astar_search(task, heuristic, make_open_entry, use_relaxed_plan)]; the
    flag is overwritten with [False] before it could be used. *)
Definition astar_search (task : Task) (heuristic : SearchNode -> ext)
    (make_open_entry : SearchNode -> ext -> nat -> Entry)
    (use_relaxed_plan : bool) (fuel : nat) : Outcome :=
  let use_relaxed_plan := false in
  astar_loop task heuristic make_open_entry fuel
    (init_search_state task heuristic make_open_entry).

Definition greedy_best_first_search (task : Task) (heuristic : SearchNode -> ext)
    (use_relaxed_plan : bool) (fuel : nat) : Outcome :=
  astar_search task heuristic ordered_node_greedy_best_first use_relaxed_plan fuel.

(** [weight=5] is the default: [None] stands for an omitted argument. *)
Definition weighted_astar_search (task : Task) (heuristic : SearchNode -> ext)
    (weight : option positive) (use_relaxed_plan : bool) (fuel : nat) : Outcome :=
  let weight := match weight with Some w => w | None => 5%positive end in
  astar_search task heuristic (ordered_node_weighted_astar weight)
    use_relaxed_plan fuel.

End AStar.

(** ** Order on frontier entries *)

Section StrictTotal.

Variable A : Type.
Variables (ltb eqb : A -> A -> bool).

(** A decidable strict total order, with a boolean equality beside it. *)
Definition strict_total : Prop :=
  (forall a b, eqb a b = true <-> a = b) /\
  (forall a, ltb a a = false) /\
  (forall a b c, ltb a b = true -> ltb b c = true -> ltb a c = true) /\
  (forall a b, ltb a b = true \/ a = b \/ ltb b a = true).

Lemma strict_total_asym (H : strict_total) a b :
  ltb a b = true -> ltb b a = false.
Proof.
  destruct H as (_ & Hirr & Htr & _). intros Hab.
  destruct (ltb b a) eqn:Hba; [|reflexivity].
  rewrite <- (Hirr a). symmetry. apply (Htr a b a); assumption.
Qed.

Lemma strict_total_neg_trans (H : strict_total) a b c :
  ltb a c = true -> ltb a b = true \/ ltb b c = true.
Proof.
  intros Hac. pose proof H as (_ & _ & Htr & Htot).
  destruct (Htot a b) as [Hab | [-> | Hba]]; auto.
  right. apply (Htr b a c); assumption.
Qed.

End StrictTotal.

Arguments strict_total {A}.

Definition lexb {A B : Type} (ltA eqA : A -> A -> bool) (ltB : B -> B -> bool)
    (x y : A * B) : bool :=
  ltA (fst x) (fst y) || (eqA (fst x) (fst y) && ltB (snd x) (snd y)).

Definition pair_eqb {A B : Type} (eqA : A -> A -> bool) (eqB : B -> B -> bool)
    (x y : A * B) : bool :=
  eqA (fst x) (fst y) && eqB (snd x) (snd y).

Lemma lexb_strict_total {A B : Type} (ltA eqA : A -> A -> bool)
    (ltB eqB : B -> B -> bool) :
  strict_total ltA eqA -> strict_total ltB eqB ->
  strict_total (lexb ltA eqA ltB) (pair_eqb eqA eqB).
Proof.
  intros (HeA & HirrA & HtrA & HtotA) (HeB & HirrB & HtrB & HtotB).
  assert (HeA' : forall a, eqA a a = true) by (intro; apply HeA; reflexivity).
  unfold lexb, pair_eqb. split; [|split; [|split]].
  - intros [a1 b1] [a2 b2]; simpl. rewrite andb_true_iff, HeA, HeB.
    split; [intros [-> ->]; reflexivity | intros Heq; inversion Heq; auto].
  - intros [a b]; simpl. rewrite HirrA, HirrB, andb_false_r. reflexivity.
  - intros [a1 b1] [a2 b2] [a3 b3]; simpl.
    rewrite !orb_true_iff, !andb_true_iff, !HeA.
    intros [H12 | [-> H12]] [H23 | [-> H23]]; eauto.
  - intros [a1 b1] [a2 b2]; simpl.
    rewrite !orb_true_iff, !andb_true_iff, !HeA.
    destruct (HtotA a1 a2) as [H | [-> | H]]; auto.
    destruct (HtotB b1 b2) as [H | [-> | H]]; auto.
Qed.

Lemma ext_strict_total : strict_total ext_ltb ext_eqb.
Proof.
  split; [|split; [|split]].
  - intros [x|] [y|]; simpl; rewrite ?Nat.eqb_eq; split; congruence.
  - intros [x|]; simpl; [apply Nat.ltb_irrefl | reflexivity].
  - intros [x|] [y|] [z|]; simpl; rewrite ?Nat.ltb_lt; intros; try lia; congruence.
  - intros [x|] [y|]; simpl; rewrite ?Nat.ltb_lt; auto.
    destruct (lt_eq_lt_dec x y) as [[H|H]|H]; subst; auto.
Qed.

Lemma nat_strict_total : strict_total Nat.ltb Nat.eqb.
Proof.
  split; [|split; [|split]].
  - intros; apply Nat.eqb_eq.
  - apply Nat.ltb_irrefl.
  - intros a b c; rewrite !Nat.ltb_lt; lia.
  - intros a b; rewrite !Nat.ltb_lt. lia.
Qed.

Definition entry_key {St Op : Type} (e : @Entry St Op) : ext * ext * nat :=
  match e with (f, h, t, _) => (f, h, t) end.

(** The tiebreaker component of an entry. *)
Definition entry_tiebreaker {St Op : Type} (e : @Entry St Op) : nat :=
  match e with (_, _, t, _) => t end.

Definition key_ltb : ext * ext * nat -> ext * ext * nat -> bool :=
  lexb (lexb ext_ltb ext_eqb ext_ltb) (pair_eqb ext_eqb ext_eqb) Nat.ltb.

Lemma key_strict_total :
  strict_total key_ltb (pair_eqb (pair_eqb ext_eqb ext_eqb) Nat.eqb).
Proof.
  apply lexb_strict_total; [apply lexb_strict_total|]; auto using
    ext_strict_total, nat_strict_total.
Qed.

Lemma entry_ltb_key {St Op : Type} (a b : @Entry St Op) :
  entry_ltb a b = key_ltb (entry_key a) (entry_key b).
Proof.
  destruct a as [[[f1 h1] t1] n1], b as [[[f2 h2] t2] n2].
  unfold entry_ltb, key_ltb, lexb, pair_eqb; simpl.
  rewrite <- !orb_assoc. f_equal.
  destruct (ext_eqb f1 f2); simpl; [|reflexivity].
  destruct (ext_ltb h1 h2); reflexivity.
Qed.

Section Heap.

Context {St Op : Type}.

Lemma entry_ltb_irrefl (a : @Entry St Op) : entry_ltb a a = false.
Proof.
  rewrite entry_ltb_key. apply key_strict_total.
Qed.

Lemma entry_ltb_asym (a b : @Entry St Op) :
  entry_ltb a b = true -> entry_ltb b a = false.
Proof.
  rewrite !entry_ltb_key. apply (strict_total_asym _ _ _ key_strict_total).
Qed.

Lemma entry_ltb_neg_trans (a b c : @Entry St Op) :
  entry_ltb a c = true -> entry_ltb a b = true \/ entry_ltb b c = true.
Proof.
  rewrite !entry_ltb_key. apply (strict_total_neg_trans _ _ _ key_strict_total).
Qed.

Lemma heappop_None (l : list (@Entry St Op)) : heappop l = None <-> l = [].
Proof.
  destruct l as [|x l]; simpl; [tauto|].
  split; [|discriminate].
  destruct (heappop l) as [[m r]|]; [destruct (entry_ltb m x)|]; discriminate.
Qed.

Lemma heappop_perm (l : list (@Entry St Op)) e rest :
  heappop l = Some (e, rest) -> Permutation l (e :: rest).
Proof.
  revert e rest. induction l as [|x l IH]; simpl; intros e rest H; [discriminate|].
  destruct (heappop l) as [[m r]|] eqn:Hl.
  - specialize (IH m r eq_refl).
    destruct (entry_ltb m x); inversion H; subst; [|reflexivity].
    rewrite IH. apply perm_swap.
  - apply heappop_None in Hl. inversion H; subst. reflexivity.
Qed.

Lemma heappop_least (l : list (@Entry St Op)) e rest :
  heappop l = Some (e, rest) -> forall x, In x l -> entry_ltb x e = false.
Proof.
  revert e rest. induction l as [|y l IH]; simpl; intros e rest H x Hx;
    [discriminate|].
  destruct (heappop l) as [[m r]|] eqn:Hl.
  - specialize (IH m r eq_refl).
    destruct (entry_ltb m y) eqn:Hmy; inversion H; subst.
    + destruct Hx as [<- | Hx]; [apply entry_ltb_asym; assumption | auto].
    + destruct Hx as [<- | Hx]; [apply entry_ltb_irrefl|].
      destruct (entry_ltb x e) eqn:Hxe; [|reflexivity].
      destruct (entry_ltb_neg_trans x m e Hxe) as [H1 | H1];
        [rewrite (IH x Hx) in H1 | rewrite Hmy in H1]; discriminate.
  - apply heappop_None in Hl; subst. inversion H; subst.
    destruct Hx as [<- | []]. apply entry_ltb_irrefl.
Qed.

Lemma heappop_in (l : list (@Entry St Op)) e rest x :
  heappop l = Some (e, rest) -> In x l -> x = e \/ In x rest.
Proof.
  intros H Hx. apply heappop_perm in H.
  apply (Permutation_in x) in H; [|exact Hx]. destruct H; auto.
Qed.

Lemma heappop_rest (l : list (@Entry St Op)) e rest x :
  heappop l = Some (e, rest) -> In x rest -> In x l.
Proof.
  intros H Hx. apply heappop_perm in H.
  apply Permutation_sym in H. apply (Permutation_in x H). right; exact Hx.
Qed.

End Heap.

(** ** Executions of the loop *)

Section Runs.

Context {St Op : Type}.
Variable St_eq_dec : forall a b : St, {a = b} + {a <> b}.
Variable task : @Task St Op.
Variable heuristic : @SearchNode St Op -> ext.

Abbreviation succs := (get_successor_states task).
Abbreviation init := (initial_state task).

(** [k] operators lead from [s] to [s']. *)
Inductive path (s : St) : nat -> St -> Prop :=
| path_refl : path s 0 s
| path_snoc k s1 op s2 :
    path s k s1 -> In (op, s2) (succs s1) -> path s (k + 1) s2.

Lemma path_app a i b k c : path a i b -> path b k c -> path a (i + k) c.
Proof.
  intros Hab Hbc. induction Hbc as [|k s1 op s2 Hp IH Hop].
  - rewrite Nat.add_0_r. exact Hab.
  - rewrite Nat.add_assoc. econstructor; eauto.
Qed.

(** The states reached by exactly [k] operators, and by at most [m]. *)
Fixpoint reach_exact (k : nat) : list St :=
  match k with
  | 0 => [init]
  | S k => flat_map (fun s => map snd (succs s)) (reach_exact k)
  end.

Definition reach_upto (m : nat) : list St :=
  flat_map reach_exact (seq 0 (S m)).

Lemma reach_exact_spec k s : path init k s <-> In s (reach_exact k).
Proof.
  split.
  - intros Hp. induction Hp as [|k s1 op s2 Hp IH Hop]; [left; reflexivity|].
    rewrite Nat.add_1_r. simpl. apply in_flat_map. exists s1. split; [exact IH|].
    apply in_map_iff. exists (op, s2). auto.
  - revert s. induction k as [|k IH]; simpl; intros s Hs.
    + destruct Hs as [<- | []]. constructor.
    + apply in_flat_map in Hs as (s1 & Hs1 & Hs).
      apply in_map_iff in Hs as ([op s2] & Hs2 & Hin). simpl in Hs2. subst s2.
      rewrite <- Nat.add_1_r. econstructor; [apply IH; exact Hs1 | exact Hin].
Qed.

Lemma reach_upto_spec m k s : path init k s -> k <= m -> In s (reach_upto m).
Proof.
  intros Hp Hk. unfold reach_upto. apply in_flat_map. exists k. split.
  - apply in_seq. lia.
  - apply reach_exact_spec. exact Hp.
Qed.

(** An ordering policy builds the entry [(key, h, tiebreaker, node)] from its
    arguments, as the three policies of the source do. *)
Definition policy_shape (mk : @SearchNode St Op -> ext -> nat -> @Entry St Op) : Prop :=
  forall n h t, exists k, mk n h t = (k, h, t, n).

(** [node_ok n]: the parent links of [n] lead back to a root node for the
    initial state, and every child node was generated from its parent's state
    by [get_successor_states]. *)
Fixpoint node_ok (n : @SearchNode St Op) : Prop :=
  match n with
  | RootNode s => s = init
  | ChildNode p op s => node_ok p /\ In (op, s) (succs (state p))
  end.

(** [runs s plan s']: applying the operators of [plan] in order, each to a
    successor [get_successor_states] lists for it, leads from [s] to [s']. *)
Inductive runs : St -> list Op -> St -> Prop :=
| runs_nil s : runs s [] s
| runs_cons s op s' l s'' :
    In (op, s') (succs s) -> runs s' l s'' -> runs s (op :: l) s''.

Lemma runs_snoc s l s' op s'' :
  runs s l s' -> In (op, s'') (succs s') -> runs s (l ++ [op]) s''.
Proof.
  intros H Hop. induction H as [s | s op1 s1 l s2 H1 H IH]; simpl.
  - econstructor; [exact Hop | constructor].
  - econstructor; [exact H1 | apply IH; exact Hop].
Qed.

Lemma node_ok_runs n : node_ok n -> runs init (extract_solution n) (state n).
Proof.
  unfold extract_solution. induction n as [s | p IH op s]; simpl; intros H.
  - subst. constructor.
  - destruct H as [Hp Hop]. apply runs_snoc with (state p); [apply IH; exact Hp | exact Hop].
Qed.

(** The loop only applies the policy: policies that agree on every argument
    give the same search. *)
Lemma expand_successor_ext mk1 mk2 p pg st x :
  (forall n h t, mk1 n h t = mk2 n h t) ->
  expand_successor St_eq_dec heuristic mk1 p pg st x =
  expand_successor St_eq_dec heuristic mk2 p pg st x.
Proof.
  intros H. destruct x as [op s']. unfold expand_successor. rewrite H. reflexivity.
Qed.

Lemma astar_loop_ext mk1 mk2 fuel st :
  (forall n h t, mk1 n h t = mk2 n h t) ->
  astar_loop St_eq_dec task heuristic mk1 fuel st =
  astar_loop St_eq_dec task heuristic mk2 fuel st.
Proof.
  intros H. revert st. induction fuel as [|fuel IH]; intros st; [reflexivity|].
  simpl. unfold astar_step. destruct (heappop (open st)) as [[[[[f h] t] n] rest]|];
    [|reflexivity].
  destruct (is_stale _ _ _); [apply IH|].
  destruct (goal_reached task (state n)); [reflexivity|].
  unfold expand. rewrite <- IH. f_equal.
  generalize {| open := rest; state_cost := state_cost st;
                node_tiebreaker := node_tiebreaker st |} as st1.
  induction (succs (state n)) as [|x l IHl]; intros st1; [reflexivity|].
  simpl. rewrite (expand_successor_ext mk1 mk2 n (g n) st1 x H). apply IHl.
Qed.

Lemma astar_search_ext mk1 mk2 use_relaxed_plan fuel :
  (forall n h t, mk1 n h t = mk2 n h t) ->
  astar_search St_eq_dec task heuristic mk1 use_relaxed_plan fuel =
  astar_search St_eq_dec task heuristic mk2 use_relaxed_plan fuel.
Proof.
  intros H. unfold astar_search, init_search_state. rewrite H.
  apply astar_loop_ext. exact H.
Qed.

Section Policy.

Variable mk : @SearchNode St Op -> ext -> nat -> @Entry St Op.

Abbreviation step := (astar_step St_eq_dec task heuristic mk).
Abbreviation cost := state_cost.

(** [steps st0 st]: the loop goes from [st0] to [st] in iterations that do
    not return. *)
Inductive steps (st0 : SearchState) : SearchState -> Prop :=
| steps_refl : steps st0 st0
| steps_snoc st st' : steps st0 st -> step st = Continue st' -> steps st0 st'.

Definition reachable (st : SearchState) : Prop :=
  steps (init_search_state St_eq_dec task heuristic mk) st.

Lemma steps_trans st1 st2 st3 : steps st1 st2 -> steps st2 st3 -> steps st1 st3.
Proof.
  intros H12 H23. induction H23; [exact H12 | econstructor; eauto].
Qed.

Lemma steps_first st st' st'' :
  step st = Continue st' -> steps st' st'' -> steps st st''.
Proof.
  intros Hs H. induction H.
  - econstructor; [constructor | exact Hs].
  - econstructor; eauto.
Qed.

Lemma astar_loop_steps fuel st r :
  astar_loop St_eq_dec task heuristic mk fuel st = Done r ->
  exists st', steps st st' /\ step st' = Return r.
Proof.
  revert st. induction fuel as [|fuel IH]; simpl; intros st H; [discriminate|].
  destruct (step st) as [st'|r'] eqn:Hs.
  - destruct (IH st' H) as (st'' & H1 & H2).
    exists st''. split; [eapply steps_first; eauto | exact H2].
  - inversion H; subst. exists st. split; [constructor | exact Hs].
Qed.

Lemma astar_loop_more fuel fuel' st r :
  astar_loop St_eq_dec task heuristic mk fuel st = Done r -> fuel <= fuel' ->
  astar_loop St_eq_dec task heuristic mk fuel' st = Done r.
Proof.
  revert fuel' st. induction fuel as [|fuel IH]; simpl; intros fuel' st H Hle;
    [discriminate|].
  destruct fuel' as [|fuel']; [lia|]. simpl.
  destruct (step st); [apply IH; [exact H | lia] | exact H].
Qed.

(** [n] iterations of the loop from [st], stopping at a [return]. *)
Fixpoint run_steps (n : nat) (st : SearchState) : SearchState :=
  match n with
  | 0 => st
  | S n' => match step st with Continue st' => run_steps n' st' | Return _ => st end
  end.

Lemma run_steps_steps n st : steps st (run_steps n st).
Proof.
  revert st. induction n as [|n IH]; intros st; simpl; [constructor|].
  destruct (step st) as [st'|r] eqn:Hs; [eapply steps_first; eauto | constructor].
Qed.

Lemma run_steps_reachable n st : reachable st -> reachable (run_steps n st).
Proof. intros Hr. eapply steps_trans; [exact Hr | apply run_steps_steps]. Qed.

(** *** One expansion *)

Section Expansion.

Variable p : @SearchNode St Op.
Variable L : list (Op * St).

(** What an expansion of [p] over the successors [L] has done to [st0]
    when it reaches [st]: the new entries are children of [p] for states
    whose cost went down to [g p + 1]; no other cost changed. *)
Definition exp_inv (st0 st : SearchState) : Prop :=
  exists new,
    open st = open st0 ++ new /\
    (forall e, In e new -> exists op s',
       In (op, s') L /\ entry_node e = ChildNode p op s' /\
       (exists t, e = mk (ChildNode p op s') (heuristic (ChildNode p op s')) t) /\
       ext_is_inf (heuristic (ChildNode p op s')) = false /\
       cost st s' = Some (g p + 1) /\
       (cost st0 s' = None \/ exists c, cost st0 s' = Some c /\ g p + 1 < c)) /\
    (forall s, cost st s = cost st0 s \/
               exists e, In e new /\ state (entry_node e) = s).

Hypothesis Hshape : policy_shape mk.

Lemma exp_inv_refl st0 : exp_inv st0 st0.
Proof.
  exists []. rewrite app_nil_r. split; [reflexivity|]. split; [intros e []|].
  intros s; left; reflexivity.
Qed.

Lemma exp_inv_step st0 st x :
  In x L -> exp_inv st0 st ->
  exp_inv st0 (expand_successor St_eq_dec heuristic mk p (g p) st x).
Proof.
  intros HxL (new & Hopen & Hnew & Hcost).
  destruct x as [op s']. unfold expand_successor.
  destruct (ext_is_inf (heuristic (make_child_node p op s'))) eqn:Hinf;
    [exists new; auto|].
  destruct (match cost st s' with None => true | Some c => Nat.ltb (g p + 1) c end)
    eqn:Hpush; [|exists new; auto].
  set (e' := mk (make_child_node p op s') (heuristic (make_child_node p op s'))
                (node_tiebreaker st + 1)).
  assert (Hstate : forall e, In e new -> state (entry_node e) <> s' ->
            cost_set St_eq_dec (cost st) s' (g p + 1) (state (entry_node e)) =
            cost st (state (entry_node e))).
  { intros e _ Hne. unfold cost_set. destruct (St_eq_dec _ s'); congruence. }
  exists (new ++ [e']). simpl. split; [unfold heappush; rewrite Hopen, app_assoc; reflexivity|].
  split.
  - intros e He. apply in_app_or in He as [He | [<- | []]].
    + destruct (Hnew e He) as (op1 & s1 & H1 & H2 & H3 & H4 & H5 & H6).
      exists op1, s1. repeat split; auto.
      unfold cost_set. destruct (St_eq_dec s1 s'); auto.
    + exists op, s'. destruct (Hshape (make_child_node p op s')
          (heuristic (make_child_node p op s')) (node_tiebreaker st + 1)) as [k Hk].
      repeat split; auto.
      * unfold e'. rewrite Hk. reflexivity.
      * eexists; reflexivity.
      * unfold cost_set. destruct (St_eq_dec s' s'); congruence.
      * destruct (Hcost s') as [Hc | (e & He & Hs)].
        -- rewrite <- Hc. destruct (cost st s') as [c|]; [right | left; reflexivity].
           exists c. split; [reflexivity | apply Nat.ltb_lt; exact Hpush].
        -- destruct (Hnew e He) as (op1 & s1 & _ & H2 & _ & _ & H5 & _).
           rewrite H2 in Hs. simpl in Hs. subst s1.
           rewrite H5, Nat.ltb_irrefl in Hpush. discriminate.
  - intros s. unfold cost_set. destruct (St_eq_dec s s') as [-> | Hne].
    + right. exists e'. split; [apply in_or_app; right; left; reflexivity|].
      destruct (Hshape (make_child_node p op s')
          (heuristic (make_child_node p op s')) (node_tiebreaker st + 1)) as [k Hk].
      unfold e'. rewrite Hk. reflexivity.
    + destruct (Hcost s) as [Hc | (e & He & Hs)]; [left; exact Hc|].
      right. exists e. split; [apply in_or_app; left|]; assumption.
Qed.

Lemma exp_inv_fold st0 l st :
  incl l L -> exp_inv st0 st ->
  exp_inv st0 (fold_left (expand_successor St_eq_dec heuristic mk p (g p)) l st).
Proof.
  revert st. induction l as [|x l IH]; simpl; intros st Hincl Hinv; [exact Hinv|].
  apply IH; [intros y Hy; apply Hincl; right; exact Hy|].
  apply exp_inv_step; [apply Hincl; left; reflexivity | exact Hinv].
Qed.

Lemma exp_inv_cost_le st0 st s c :
  exp_inv st0 st -> cost st0 s = Some c ->
  exists c', cost st s = Some c' /\ c' <= c.
Proof.
  intros (new & _ & Hnew & Hcost) Hc.
  destruct (Hcost s) as [H | (e & He & Hs)]; [exists c; rewrite H; auto|].
  destruct (Hnew e He) as (op & s' & _ & H2 & _ & _ & H5 & H6).
  rewrite H2 in Hs. simpl in Hs. subst s'.
  exists (g p + 1). split; [exact H5|].
  destruct H6 as [H6 | (c' & H6 & H7)]; congruence || (rewrite Hc in H6; inversion H6; lia).
Qed.

(** The cost of every successor with a finite heuristic value is at most
    [g p + 1] once the expansion has processed it. *)
Lemma expand_fold_succ_le l st op s' :
  incl l L -> In (op, s') l ->
  ext_is_inf (heuristic (ChildNode p op s')) = false ->
  exists c, cost (fold_left (expand_successor St_eq_dec heuristic mk p (g p)) l st) s'
            = Some c /\ c <= g p + 1.
Proof.
  revert st. induction l as [|x l IH]; simpl; intros st Hincl Hin Hfin; [contradiction|].
  assert (Hincl' : incl l L) by (intros y Hy; apply Hincl; right; exact Hy).
  destruct Hin as [-> | Hin]; [|apply IH; assumption].
  set (st1 := expand_successor St_eq_dec heuristic mk p (g p) st (op, s')).
  assert (H1 : exists c, cost st1 s' = Some c /\ c <= g p + 1).
  { unfold st1, expand_successor, make_child_node. rewrite Hfin.
    destruct (cost st s') as [c|] eqn:Hc.
    - destruct (Nat.ltb_spec (g p + 1) c) as [Hlt | Hge].
      + simpl. unfold cost_set. destruct (St_eq_dec s' s'); [|congruence].
        exists (g p + 1). auto.
      + rewrite Hc. exists c. auto.
    - simpl. unfold cost_set. destruct (St_eq_dec s' s'); [|congruence].
      exists (g p + 1). auto. }
  destruct H1 as (c & Hc & Hle).
  destruct (exp_inv_cost_le st1 _ s' c (exp_inv_fold st1 l st1 Hincl' (exp_inv_refl st1)) Hc)
    as (c' & Hc' & Hle').
  exists c'. split; [exact Hc' | lia].
Qed.

End Expansion.

(** *** The shape of one iteration *)

Definition after_pop (st : @SearchState St Op) (rest : list (@Entry St Op))
    : @SearchState St Op :=
  mkSearchState rest (cost st) (node_tiebreaker st).

Lemma step_continue st st' :
  step st = Continue st' ->
  exists e rest, heappop (open st) = Some (e, rest) /\
    ((is_stale (cost st) (state (entry_node e)) (g (entry_node e)) = true /\
      st' = after_pop st rest) \/
     (is_stale (cost st) (state (entry_node e)) (g (entry_node e)) = false /\
      goal_reached task (state (entry_node e)) = false /\
      st' = expand St_eq_dec task heuristic mk (entry_node e) (after_pop st rest))).
Proof.
  unfold astar_step. destruct (heappop (open st)) as [[[[[f h] t] n] rest]|];
    [|discriminate].
  simpl. intros H. exists (f, h, t, n), rest. split; [reflexivity|]. simpl.
  destruct (is_stale (cost st) (state n) (g n)).
  - left. inversion H; auto.
  - destruct (goal_reached task (state n)); [discriminate|].
    right. inversion H; auto.
Qed.

Lemma step_return st r :
  step st = Return r ->
  (open st = [] /\ r = None) \/
  (exists e rest, heappop (open st) = Some (e, rest) /\
     is_stale (cost st) (state (entry_node e)) (g (entry_node e)) = false /\
     goal_reached task (state (entry_node e)) = true /\
     r = Some (extract_solution (entry_node e))).
Proof.
  unfold astar_step. destruct (heappop (open st)) as [[[[[f h] t] n] rest]|] eqn:Hp.
  - simpl. intros H. right. exists (f, h, t, n), rest. split; [reflexivity|]. simpl.
    destruct (is_stale (cost st) (state n) (g n)); [discriminate|].
    destruct (goal_reached task (state n)); [|discriminate].
    inversion H; auto.
  - intros H. inversion H; subst. left. split; [apply heappop_None; exact Hp | reflexivity].
Qed.

Hypothesis Hshape : policy_shape mk.

(** *** Invariants of every reachable state *)

(** Every entry is live or stale ([cost] at most its [g]), describes a path
    of [g] operators from the initial state and was built by the policy from
    the node's heuristic value; every cost is the length of such a path. *)
Definition basic_inv (st : SearchState) : Prop :=
  (forall e, In e (open st) ->
     (exists c, cost st (state (entry_node e)) = Some c /\ c <= g (entry_node e)) /\
     path init (g (entry_node e)) (state (entry_node e)) /\
     (exists t, e = mk (entry_node e) (heuristic (entry_node e)) t)) /\
  (forall s v, cost st s = Some v -> path init v s).

Lemma basic_inv_init :
  basic_inv (init_search_state St_eq_dec task heuristic mk).
Proof.
  unfold init_search_state, make_root_node, heappush. simpl. split.
  - intros e [<- | []].
    destruct (Hshape (RootNode init) (heuristic (RootNode init)) 0) as [k Hk].
    rewrite Hk. simpl. repeat split.
    + exists 0. unfold cost_set. destruct (St_eq_dec init init); [|congruence]. auto.
    + constructor.
    + exists 0. rewrite Hk. reflexivity.
  - intros s v. unfold cost_set, cost_empty.
    cbn. destruct (St_eq_dec s init) as [-> | _]; [|intros H; discriminate H].
    intros H; inversion H; constructor.
Qed.

Lemma expand_exp_inv n st :
  exp_inv n (succs (state n)) st (expand St_eq_dec task heuristic mk n st).
Proof.
  apply exp_inv_fold; [assumption | intros x Hx; exact Hx | apply exp_inv_refl].
Qed.

Lemma basic_inv_step st st' :
  basic_inv st -> step st = Continue st' -> basic_inv st'.
Proof.
  intros [Hopen Hcost] Hs.
  destruct (step_continue st st' Hs) as (e & rest & Hp & [[_ ->] | (_ & _ & ->)]).
  - split; [|exact Hcost].
    intros x Hx. apply Hopen. eapply heappop_rest; eauto.
  - set (n := entry_node e).
    assert (He : In e (open st)) by (apply heappop_perm in Hp;
      apply (Permutation_in e (Permutation_sym Hp)); left; reflexivity).
    destruct (Hopen e He) as (_ & Hpath & _).
    pose proof (expand_exp_inv n (after_pop st rest)) as Hinv.
    destruct Hinv as (new & Hop & Hnew & Hch).
    split.
    + intros x Hx. rewrite Hop in Hx. simpl in Hx. apply in_app_or in Hx as [Hx | Hx].
      * destruct (Hopen x (heappop_rest _ _ _ _ Hp Hx)) as ((c & Hc & Hle) & H2 & H3).
        destruct (exp_inv_cost_le n (succs (state n)) (after_pop st rest) _ _ c
                    (expand_exp_inv n _) Hc) as (c' & Hc' & Hle').
        repeat split; auto. exists c'. split; [exact Hc' | lia].
      * destruct (Hnew x Hx) as (op & s' & HL & Hnode & Ht & _ & Hc & _).
        rewrite Hnode. simpl. repeat split.
        -- exists (g n + 1). auto.
        -- econstructor; eauto.
        -- exact Ht.
    + intros s v Hv. destruct (Hch s) as [Hs' | (x & Hx & Hxs)].
      * apply Hcost. rewrite <- Hv, Hs'. reflexivity.
      * destruct (Hnew x Hx) as (op & s' & HL & Hnode & _ & _ & Hc & _).
        rewrite Hnode in Hxs. simpl in Hxs. subst s'.
        rewrite Hv in Hc. inversion Hc; subst.
        econstructor; eauto.
Qed.

Lemma basic_inv_steps st st' : basic_inv st -> steps st st' -> basic_inv st'.
Proof.
  intros H Hs. induction Hs; [exact H|]. eapply basic_inv_step; eauto.
Qed.

Lemma reachable_basic_inv st : reachable st -> basic_inv st.
Proof. apply basic_inv_steps, basic_inv_init. Qed.

Lemma in_open_step st st' x :
  step st = Continue st' -> In x (open st') ->
  In x (open st) \/
  exists e rest op s', heappop (open st) = Some (e, rest) /\
    In (op, s') (succs (state (entry_node e))) /\
    entry_node x = ChildNode (entry_node e) op s' /\
    ext_is_inf (heuristic (ChildNode (entry_node e) op s')) = false /\
    cost st' s' = Some (g (entry_node e) + 1).
Proof.
  intros Hs Hx.
  destruct (step_continue st st' Hs) as (e & rest & Hp & [[_ ->] | (_ & _ & ->)]).
  - left. eapply heappop_rest; eauto.
  - destruct (expand_exp_inv (entry_node e) (after_pop st rest)) as (new & Hop & Hnew & _).
    rewrite Hop in Hx. apply in_app_or in Hx as [Hx | Hx].
    + left. eapply heappop_rest; eauto.
    + right. destruct (Hnew x Hx) as (op & s' & HL & Hn & _ & Hf & Hc & _).
      exists e, rest, op, s'. auto.
Qed.

Lemma cost_step st st' s :
  step st = Continue st' ->
  cost st' s = cost st s \/
  exists e rest op, heappop (open st) = Some (e, rest) /\
    In (op, s) (succs (state (entry_node e))) /\
    ext_is_inf (heuristic (ChildNode (entry_node e) op s)) = false /\
    cost st' s = Some (g (entry_node e) + 1) /\
    exists x, In x (open st') /\ entry_node x = ChildNode (entry_node e) op s.
Proof.
  intros Hs.
  destruct (step_continue st st' Hs) as (e & rest & Hp & [[_ ->] | (_ & _ & ->)]);
    [left; reflexivity|].
  destruct (expand_exp_inv (entry_node e) (after_pop st rest)) as (new & Hop & Hnew & Hch).
  destruct (Hch s) as [H | (x & Hx & Hxs)]; [left; exact H|].
  destruct (Hnew x Hx) as (op & s' & HL & Hn & _ & Hf & Hc & _).
  rewrite Hn in Hxs. simpl in Hxs. subst s'.
  right. exists e, rest, op. repeat split; auto.
  exists x. split; [rewrite Hop; apply in_or_app; right; exact Hx | exact Hn].
Qed.

(** ** C3: the staleness check *)

(** Claim C3: a popped entry is discarded, with neither goal test nor
    expansion, exactly when the cost table holds a value strictly below the
    node's [g]; an entry that is not discarded has [g] equal to the table's
    value for its state, and the iteration then goes on to the goal test and
    the expansion. *)
Theorem staleness_check st e rest :
  reachable st -> heappop (open st) = Some (e, rest) ->
  (is_stale (cost st) (state (entry_node e)) (g (entry_node e)) = true <->
   exists c, cost st (state (entry_node e)) = Some c /\ c < g (entry_node e)) /\
  (is_stale (cost st) (state (entry_node e)) (g (entry_node e)) = true ->
   step st = Continue (after_pop st rest)) /\
  (is_stale (cost st) (state (entry_node e)) (g (entry_node e)) = false ->
   cost st (state (entry_node e)) = Some (g (entry_node e)) /\
   step st = if goal_reached task (state (entry_node e))
             then Return (Some (extract_solution (entry_node e)))
             else Continue (expand St_eq_dec task heuristic mk (entry_node e)
                                   (after_pop st rest))).
Proof.
  intros Hr Hp.
  assert (He : In e (open st)) by (apply heappop_perm in Hp;
    apply (Permutation_in e (Permutation_sym Hp)); left; reflexivity).
  destruct (proj1 (reachable_basic_inv st Hr) e He) as ((c & Hc & Hle) & _ & _).
  assert (Hstep : step st =
    if is_stale (cost st) (state (entry_node e)) (g (entry_node e))
    then Continue (after_pop st rest)
    else if goal_reached task (state (entry_node e))
         then Return (Some (extract_solution (entry_node e)))
         else Continue (expand St_eq_dec task heuristic mk (entry_node e)
                               (after_pop st rest))).
  { unfold astar_step. rewrite Hp. destruct e as [[[f h] t] n]. reflexivity. }
  unfold is_stale in *. rewrite Hc in *. split; [|split].
  - rewrite Nat.ltb_lt. split; [intros; exists c; auto | intros (c' & Hc' & Hlt)].
    congruence.
  - intros Hst. rewrite Hstep, Hst. reflexivity.
  - intros Hst. rewrite Hstep, Hst. apply Nat.ltb_ge in Hst.
    split; [f_equal; lia | reflexivity].
Qed.

(** ** C5: one successor of an expansion *)

(** Claim C5: the expansion of [p] handles every successor with
    [new_g = g p + 1], which is also the [g] of the child node; a child with
    a finite heuristic value is pushed exactly when its state is absent from
    the cost table or [new_g] is strictly below the table's value, and then
    the table entry becomes [new_g] and the tiebreaker is incremented before
    it goes into the new entry; otherwise nothing changes. *)
Theorem expand_successor_push p st op s' :
  expand St_eq_dec task heuristic mk p st =
    fold_left (expand_successor St_eq_dec heuristic mk p (g p)) (succs (state p)) st /\
  g (make_child_node p op s') = g p + 1 /\
  (ext_is_inf (heuristic (make_child_node p op s')) = false ->
   ((cost st s' = None \/ exists c, cost st s' = Some c /\ g p + 1 < c) /\
    expand_successor St_eq_dec heuristic mk p (g p) st (op, s') =
      mkSearchState
        (open st ++ [mk (make_child_node p op s')
                        (heuristic (make_child_node p op s'))
                        (node_tiebreaker st + 1)])
        (cost_set St_eq_dec (cost st) s' (g p + 1))
        (node_tiebreaker st + 1)) \/
   (~ (cost st s' = None \/ exists c, cost st s' = Some c /\ g p + 1 < c) /\
    expand_successor St_eq_dec heuristic mk p (g p) st (op, s') = st)).
Proof.
  split; [reflexivity|]. split; [reflexivity|]. intros Hfin.
  unfold expand_successor. rewrite Hfin.
  destruct (cost st s') as [c|] eqn:Hc.
  - destruct (Nat.ltb_spec (g p + 1) c) as [Hlt | Hge].
    + left. split; [right; exists c; auto | reflexivity].
    + right. split; [|reflexivity].
      intros [H | (c' & H & Hlt)]; [discriminate|]. inversion H; subst. lia.
  - left. split; [left; reflexivity | reflexivity].
Qed.

(** ** C6: dead ends *)

(** Claim C6: a child whose heuristic value is [Inf] changes nothing (it is
    neither pushed nor written to the cost table); hence a state other than
    the initial one whose child nodes all have heuristic value [Inf] never
    enters the cost table or the frontier. *)
Theorem dead_end_pruned :
  (forall p st op s',
     ext_is_inf (heuristic (make_child_node p op s')) = true ->
     expand_successor St_eq_dec heuristic mk p (g p) st (op, s') = st) /\
  (forall s, s <> init ->
     (forall p op, ext_is_inf (heuristic (ChildNode p op s)) = true) ->
     forall st, reachable st ->
       cost st s = None /\ forall x, In x (open st) -> state (entry_node x) <> s).
Proof.
  split.
  - intros p st op s' Hinf. unfold expand_successor. rewrite Hinf. reflexivity.
  - intros s Hne Hinf st Hr. induction Hr as [|st st' Hr IH Hs].
    + unfold init_search_state, make_root_node, heappush. cbn. split.
      * unfold cost_set, cost_empty.
        destruct (St_eq_dec s init); [contradiction | reflexivity].
      * intros x [<- | []].
        destruct (Hshape (RootNode init) (heuristic (RootNode init)) 0) as [k Hk].
        rewrite Hk. simpl. congruence.
    + destruct IH as [IHc IHo]. split.
      * destruct (cost_step st st' s Hs) as [H | (e & rest & op & _ & _ & Hf & _)];
          [rewrite H; exact IHc|].
        rewrite Hinf in Hf. discriminate.
      * intros x Hx. destruct (in_open_step st st' x Hs Hx) as
          [Hx' | (e & rest & op & s' & _ & _ & Hn & Hf & _)]; [apply IHo; exact Hx'|].
        rewrite Hn. simpl. intros ->. rewrite Hinf in Hf. discriminate.
Qed.

(** ** C7: exhaustion *)

(** Claim C7: when [astar_search] finishes, it returns [None] exactly when
    the loop reached an empty frontier, every earlier iteration having gone on
    without a successful goal test; a returned plan comes from a popped node
    whose state passed the goal test; and for a task with no goal state
    reachable from the initial state the (ordinary) result is [None]. *)
Theorem astar_search_none_iff use_relaxed_plan fuel r :
  astar_search St_eq_dec task heuristic mk use_relaxed_plan fuel = Done r ->
  (r = None <-> exists st, reachable st /\ open st = [] /\ step st = Return r) /\
  (forall plan, r = Some plan ->
     exists st e rest, reachable st /\ heappop (open st) = Some (e, rest) /\
       goal_reached task (state (entry_node e)) = true /\
       plan = extract_solution (entry_node e) /\ step st = Return r) /\
  ((forall k s, path init k s -> goal_reached task s = false) -> r = None).
Proof.
  unfold astar_search. intros H.
  destruct (astar_loop_steps _ _ _ H) as (st & Hr & Hs).
  assert (Hcase := step_return st r Hs).
  split; [|split].
  - split.
    + intros ->. exists st. split; [exact Hr|]. split; [|exact Hs].
      destruct Hcase as [[Ho _] | (e & rest & _ & _ & _ & Hsome)]; [exact Ho|discriminate].
    + intros (st' & _ & Ho & Hs').
      unfold astar_step in Hs'. rewrite Ho in Hs'. simpl in Hs'.
      inversion Hs'. reflexivity.
  - intros plan ->.
    destruct Hcase as [[_ Hn] | (e & rest & Hp & _ & Hg & Hsome)]; [discriminate|].
    exists st, e, rest. inversion Hsome; subst. auto.
  - intros Hno. destruct Hcase as [[_ Hn] | (e & rest & Hp & _ & Hg & _)]; [exact Hn|].
    assert (He : In e (open st)) by (apply heappop_perm in Hp;
      apply (Permutation_in e (Permutation_sym Hp)); left; reflexivity).
    destruct (proj1 (reachable_basic_inv st Hr) e He) as (_ & Hpath & _).
    rewrite (Hno _ _ Hpath) in Hg. discriminate.
Qed.

Lemma cost_step_le st st' s c :
  step st = Continue st' -> cost st s = Some c ->
  exists c', cost st' s = Some c' /\ c' <= c.
Proof.
  intros Hs Hc.
  destruct (step_continue st st' Hs) as (e & rest & Hp & [[_ ->] | (_ & _ & ->)]);
    [exists c; auto|].
  eapply exp_inv_cost_le; [apply expand_exp_inv | exact Hc].
Qed.

Lemma cost_steps_le st st' s c :
  steps st st' -> cost st s = Some c ->
  exists c', cost st' s = Some c' /\ c' <= c.
Proof.
  intros Hs Hc. induction Hs as [|st1 st2 Hs IH Hstep]; [exists c; auto|].
  destruct IH as (c1 & Hc1 & Hle1).
  destruct (cost_step_le st1 st2 s c1 Hstep Hc1) as (c2 & Hc2 & Hle2).
  exists c2. split; [exact Hc2 | lia].
Qed.

(** ** C4: the cost table *)

(** Claim C4: at the start of every iteration, the value the cost table holds
    for a state is the least [g] of the nodes pushed so far for that state
    (the nodes that were in the frontier at some earlier or the current
    iteration, the root included): some such node has that [g] and none has
    a smaller one; and the value of a state never increases. *)
Theorem cost_table_min st :
  reachable st ->
  (forall s v, cost st s = Some v ->
     (exists st0 x, reachable st0 /\ steps st0 st /\ In x (open st0) /\
        state (entry_node x) = s /\ g (entry_node x) = v) /\
     (forall st0 x, reachable st0 -> steps st0 st -> In x (open st0) ->
        state (entry_node x) = s -> v <= g (entry_node x))) /\
  (forall st' s v, steps st st' -> cost st s = Some v ->
     exists v', cost st' s = Some v' /\ v' <= v).
Proof.
  intros Hr. split; [|intros st' s v Hs Hv; eapply cost_steps_le; eauto].
  intros s v Hv. split.
  - clear - Hshape Hr Hv. revert s v Hv.
    induction Hr as [|st st' Hr IH Hs]; intros s v Hv.
    + unfold init_search_state, make_root_node, heappush in *. cbn in Hv.
      unfold cost_set, cost_empty in Hv.
      destruct (St_eq_dec s init) as [-> | _]; [|discriminate].
      inversion Hv; subst.
      destruct (Hshape (RootNode init) (heuristic (RootNode init)) 0) as [k Hk].
      exists (init_search_state St_eq_dec task heuristic mk),
             (mk (RootNode init) (heuristic (RootNode init)) 0).
      split; [constructor|]. split; [constructor|].
      split; [left; reflexivity|]. rewrite Hk. auto.
    + destruct (cost_step st st' s Hs) as [H | (e & rest & op & _ & _ & _ & Hc & x & Hx & Hn)].
      * rewrite H in Hv. destruct (IH s v Hv) as (st0 & x & H1 & H2 & H3 & H4 & H5).
        exists st0, x. repeat split; auto. econstructor; eauto.
      * rewrite Hv in Hc. inversion Hc; subst.
        exists st', x. split; [econstructor; eauto|]. split; [constructor|].
        rewrite Hn. auto.
  - intros st0 x Hr0 Hs0 Hx Hxs.
    destruct (proj1 (reachable_basic_inv st0 Hr0) x Hx) as ((c & Hc & Hle) & _ & _).
    rewrite Hxs in Hc.
    destruct (cost_steps_le st0 st s c Hs0 Hc) as (c' & Hc' & Hle').
    rewrite Hv in Hc'. inversion Hc'; subst. lia.
Qed.

(** *** Termination measure *)

Definition lex_lt (m' m : nat * nat * nat) : Prop :=
  match m', m with
  | (a', b', c'), (a, b, c) => a' < a \/ (a' = a /\ (b' < b \/ (b' = b /\ c' < c)))
  end.

Lemma astar_loop_terminates (J : SearchState -> Prop)
    (mu : SearchState -> nat * nat * nat) :
  (forall st st', J st -> step st = Continue st' -> J st' /\ lex_lt (mu st') (mu st)) ->
  forall st, J st -> exists fuel r, astar_loop St_eq_dec task heuristic mk fuel st = Done r.
Proof.
  intros Hdec.
  assert (Hmain : forall a b c st, mu st = (a, b, c) -> J st ->
            exists fuel r, astar_loop St_eq_dec task heuristic mk fuel st = Done r).
  { intros a. induction a as [a IHa] using (well_founded_induction lt_wf).
    intros b. induction b as [b IHb] using (well_founded_induction lt_wf).
    intros c. induction c as [c IHc] using (well_founded_induction lt_wf).
    intros st Hmu HJ.
    destruct (step st) as [st'|r] eqn:Hs; [|exists 1, r; simpl; rewrite Hs; reflexivity].
    destruct (Hdec st st' HJ Hs) as [HJ' Hlt]. rewrite Hmu in Hlt.
    destruct (mu st') as [[a' b'] c'] eqn:Hmu'.
    assert (Hfin : exists fuel r, astar_loop St_eq_dec task heuristic mk fuel st' = Done r).
    { destruct Hlt as [Ha | [-> [Hb | [-> Hc]]]].
      - exact (IHa a' Ha b' c' st' Hmu' HJ').
      - exact (IHb b' Hb c' st' Hmu' HJ').
      - exact (IHc c' Hc st' Hmu' HJ'). }
    destruct Hfin as (fuel & r & Hr). exists (S fuel), r. simpl. rewrite Hs. exact Hr. }
  intros st HJ. destruct (mu st) as [[a b] c] eqn:Hmu. exact (Hmain a b c st Hmu HJ).
Qed.

Definition absent_count (K : list St) (c : CostTable) : nat :=
  list_sum (map (fun s => match c s with None => 1 | Some _ => 0 end) K).

Definition cost_sum (K : list St) (c : CostTable) : nat :=
  list_sum (map (fun s => match c s with None => 0 | Some v => v end) K).

(** The measure: states of [K] absent from the table, sum of the costs of
    the states of [K], size of the frontier. *)
Definition measure (K : list St) (st : @SearchState St Op) : nat * nat * nat :=
  (absent_count K (cost st), cost_sum K (cost st), length (open st)).

Lemma measure_table (K : list St) (c c' : CostTable) :
  (forall s v, c s = Some v -> exists v', c' s = Some v' /\ v' <= v) ->
  (absent_count K c' < absent_count K c \/
   (absent_count K c' = absent_count K c /\ cost_sum K c' <= cost_sum K c)) /\
  ((exists s, In s K /\ c' s <> c s) ->
   absent_count K c' < absent_count K c \/
   (absent_count K c' = absent_count K c /\ cost_sum K c' < cost_sum K c)).
Proof.
  intros Hle. unfold absent_count, cost_sum.
  induction K as [|x K [IHw IHs]]; simpl.
  - split; [right; auto | intros (s & [] & _)].
  - assert (Hx : forall v, c x = Some v -> exists v', c' x = Some v' /\ v' <= v)
      by (intros v; apply Hle).
    destruct (c x) as [v|] eqn:Hcx; destruct (c' x) as [v'|] eqn:Hc'x.
    + destruct (Hx v eq_refl) as (v'' & Hv'' & Hlev). inversion Hv''; subst v''.
      split; [lia|].
      intros (s & [-> | Hs] & Hne).
      * rewrite Hcx, Hc'x in Hne. assert (v' <> v) by congruence. lia.
      * specialize (IHs (ex_intro _ s (conj Hs Hne))). lia.
    + destruct (Hx v eq_refl) as (v'' & Hv'' & _). discriminate.
    + split; [lia|]. intros _. lia.
    + split; [lia|].
      intros (s & [-> | Hs] & Hne); [rewrite Hcx, Hc'x in Hne; congruence|].
      specialize (IHs (ex_intro _ s (conj Hs Hne))). lia.
Qed.

Lemma changed_or_same (K : list St) (c c' : CostTable) :
  (exists s, In s K /\ c' s <> c s) \/ (forall s, In s K -> c' s = c s).
Proof.
  induction K as [|x K [IH | IH]].
  - right. intros s [].
  - left. destruct IH as (s & Hs & Hne). exists s. split; [right|]; assumption.
  - destruct (opt_nat_eq_dec (c' x) (c x)) as [Heq | Hne].
    + right. intros s [<- | Hs]; auto.
    + left. exists x. split; [left; reflexivity | exact Hne].
Qed.

Lemma step_same_cost_shrinks st st' :
  step st = Continue st' -> (forall s, cost st' s = cost st s) ->
  length (open st') < length (open st).
Proof.
  intros Hs Hsame.
  destruct (step_continue st st' Hs) as (e & rest & Hp & [[_ ->] | (_ & _ & ->)]);
    apply heappop_perm, Permutation_length in Hp; simpl in Hp.
  - simpl. lia.
  - destruct (expand_exp_inv (entry_node e) (after_pop st rest)) as (new & Hop & Hnew & _).
    rewrite Hop. simpl. destruct new as [|x new]; [rewrite app_nil_r; lia|].
    exfalso. destruct (Hnew x (or_introl eq_refl)) as (op & s' & _ & _ & _ & _ & Hc & Hold).
    rewrite Hsame in Hc. simpl in Hold.
    destruct Hold as [Hold | (c & Hold & Hlt)]; rewrite Hc in Hold; inversion Hold; lia.
Qed.

(** An iteration that changes only costs of states in [K] decreases the
    measure. *)
Lemma measure_step (K : list St) st st' :
  step st = Continue st' ->
  (forall s, cost st' s <> cost st s -> In s K) ->
  lex_lt (measure K st') (measure K st).
Proof.
  intros Hs HK.
  assert (Hle : forall s v, cost st s = Some v ->
            exists v', cost st' s = Some v' /\ v' <= v)
    by (intros s v; apply cost_step_le; exact Hs).
  destruct (measure_table K (cost st) (cost st') Hle) as [Hw Hstr].
  unfold measure, lex_lt.
  destruct (changed_or_same K (cost st) (cost st')) as [Hch | Hsame].
  - destruct (Hstr Hch) as [H | [H1 H2]]; [left; exact H | right; split; [exact H1 | left; exact H2]].
  - assert (Hall : forall s, cost st' s = cost st s).
    { intros s. destruct (opt_nat_eq_dec (cost st' s) (cost st s)) as [H | H];
        [exact H | exact (Hsame s (HK s H))]. }
    right. unfold absent_count, cost_sum.
    rewrite !(map_ext (fun s => match cost st' s with None => 1 | Some _ => 0 end)
                       (fun s => match cost st s with None => 1 | Some _ => 0 end))
      by (intros s; rewrite Hall; reflexivity).
    rewrite !(map_ext (fun s => match cost st' s with None => 0 | Some v => v end)
                       (fun s => match cost st s with None => 0 | Some v => v end))
      by (intros s; rewrite Hall; reflexivity).
    split; [reflexivity|]. right. split; [reflexivity|].
    apply step_same_cost_shrinks; assumption.
Qed.

Lemma in_open_heappop (st : @SearchState St Op) e rest :
  heappop (open st) = Some (e, rest) -> In e (open st).
Proof.
  intros Hp. apply heappop_perm in Hp.
  apply (Permutation_in e (Permutation_sym Hp)). left; reflexivity.
Qed.

(** The states whose cost an iteration changes are successors of the state
    of the popped node. *)
Lemma cost_change_succ st st' s :
  step st = Continue st' -> cost st' s <> cost st s ->
  exists e rest op, heappop (open st) = Some (e, rest) /\
    is_stale (cost st) (state (entry_node e)) (g (entry_node e)) = false /\
    In (op, s) (succs (state (entry_node e))).
Proof.
  intros Hs Hne.
  destruct (step_continue st st' Hs) as (e & rest & Hp & [[_ ->] | (Hst & _ & ->)]);
    [contradiction|].
  destruct (expand_exp_inv (entry_node e) (after_pop st rest)) as (new & _ & Hnew & Hch).
  destruct (Hch s) as [H | (x & Hx & Hxs)]; [contradiction|].
  destruct (Hnew x Hx) as (op & s' & HL & Hn & _).
  rewrite Hn in Hxs. simpl in Hxs. subst s'.
  exists e, rest, op. auto.
Qed.

Lemma path_closed (R : list St) :
  In init R -> (forall s op s', In s R -> In (op, s') (succs s) -> In s' R) ->
  forall k s, path init k s -> In s R.
Proof.
  intros Hinit Hcl k s Hp. induction Hp; eauto.
Qed.

(** ** C2: termination on a finite state space *)

(** Claim C2: if the states reachable from the initial state are among
    those of a finite list [R] (it holds the initial state and is closed
    under [get_successor_states]), then [astar_search] finishes for every
    heuristic and every ordering policy, returning a plan or [None]. *)
Theorem astar_search_terminates (R : list St) use_relaxed_plan :
  In init R ->
  (forall s op s', In s R -> In (op, s') (succs s) -> In s' R) ->
  exists fuel r,
    astar_search St_eq_dec task heuristic mk use_relaxed_plan fuel = Done r.
Proof.
  intros Hinit Hcl. unfold astar_search.
  apply (astar_loop_terminates reachable (measure R)); [|constructor].
  intros st st' Hr Hs. split; [econstructor; eauto|].
  apply measure_step; [exact Hs|].
  intros s Hne.
  destruct (cost_change_succ st st' s Hs Hne) as (e & rest & op & Hp & _ & Hop).
  destruct (proj1 (reachable_basic_inv st Hr) e (in_open_heappop st e rest Hp))
    as (_ & Hpath & _).
  eapply Hcl; [|exact Hop]. eapply path_closed; eauto.
Qed.

(** *** Further invariants of the loop *)

Lemma reachable_node_ok st :
  reachable st -> forall x, In x (open st) -> node_ok (entry_node x).
Proof.
  intros Hr. induction Hr as [|st st' Hr IH Hs].
  - unfold init_search_state, make_root_node, heappush. cbn. intros x [<- | []].
    destruct (Hshape (RootNode init) (heuristic (RootNode init)) 0) as [k Hk].
    rewrite Hk. reflexivity.
  - intros x Hx.
    destruct (in_open_step st st' x Hs Hx) as [Hx' | (e & rest & op & s' & Hp & Hop & Hn & _)];
      [apply IH; exact Hx'|].
    rewrite Hn. simpl. split; [apply IH, (in_open_heappop st e rest Hp) | exact Hop].
Qed.

(** Every entry has a cost at most its [g]; the tiebreakers are distinct and
    at most the counter; two entries for one state with the same [g] have
    the same tiebreaker. *)
Definition frontier_inv (st : @SearchState St Op) : Prop :=
  (forall x, In x (open st) ->
     exists c, cost st (state (entry_node x)) = Some c /\ c <= g (entry_node x)) /\
  (forall x, In x (open st) -> entry_tiebreaker x <= node_tiebreaker st) /\
  NoDup (map entry_tiebreaker (open st)) /\
  (forall x y, In x (open st) -> In y (open st) ->
     state (entry_node x) = state (entry_node y) ->
     g (entry_node x) = g (entry_node y) ->
     entry_tiebreaker x = entry_tiebreaker y).

Lemma frontier_inv_init :
  frontier_inv (init_search_state St_eq_dec task heuristic mk).
Proof.
  unfold init_search_state, make_root_node, heappush. cbn.
  destruct (Hshape (RootNode init) (heuristic (RootNode init)) 0) as [k Hk].
  rewrite Hk. split; [|split; [|split]]; simpl.
  - intros x [<- | []]. exists 0. simpl. unfold cost_set.
    destruct (St_eq_dec init init); [auto | congruence].
  - intros x [<- | []]. simpl. lia.
  - constructor; [intros [] | constructor].
  - intros x y [<- | []] [<- | []] _ _. reflexivity.
Qed.

Lemma frontier_inv_after_pop st e rest :
  frontier_inv st -> heappop (open st) = Some (e, rest) ->
  frontier_inv (after_pop st rest).
Proof.
  intros (H1 & H2 & H3 & H4) Hp. unfold after_pop.
  split; [|split; [|split]]; simpl.
  - intros x Hx. apply H1. eapply heappop_rest; eauto.
  - intros x Hx. apply H2. eapply heappop_rest; eauto.
  - apply heappop_perm, (Permutation_map entry_tiebreaker) in Hp.
    apply (Permutation_NoDup Hp) in H3. simpl in H3. inversion H3; assumption.
  - intros x y Hx Hy. apply H4; eapply heappop_rest; eauto.
Qed.

Lemma frontier_inv_succ p st x :
  frontier_inv st ->
  frontier_inv (expand_successor St_eq_dec heuristic mk p (g p) st x).
Proof.
  intros Hinv. pose proof Hinv as (H1 & H2 & H3 & H4).
  destruct x as [op s']. unfold expand_successor.
  destruct (ext_is_inf (heuristic (make_child_node p op s'))); [exact Hinv|].
  destruct (match cost st s' with None => true | Some c => Nat.ltb (g p + 1) c end)
    eqn:Hpush; [|exact Hinv].
  destruct (Hshape (make_child_node p op s') (heuristic (make_child_node p op s'))
              (node_tiebreaker st + 1)) as [k Hk].
  unfold heappush. rewrite Hk.
  assert (Hlt : forall x, In x (open st) -> state (entry_node x) = s' ->
                  g p + 1 < g (entry_node x)).
  { intros x Hx Hxs. destruct (H1 x Hx) as (c & Hc & Hle). rewrite Hxs in Hc.
    rewrite Hc in Hpush. apply Nat.ltb_lt in Hpush. lia. }
  split; [|split; [|split]]; simpl.
  - intros x Hx. apply in_app_or in Hx as [Hx | [<- | []]].
    + unfold cost_set. destruct (St_eq_dec (state (entry_node x)) s') as [Heq | _];
        [|apply H1; exact Hx].
      exists (g p + 1). split; [reflexivity|]. pose proof (Hlt x Hx Heq). lia.
    + simpl. unfold cost_set. destruct (St_eq_dec s' s'); [|congruence].
      exists (g p + 1). split; [reflexivity | lia].
  - intros x Hx. apply in_app_or in Hx as [Hx | [<- | []]]; simpl;
      [pose proof (H2 x Hx); lia | lia].
  - rewrite map_app. simpl. apply (Permutation_NoDup (Permutation_cons_append _ _)).
    constructor; [|exact H3].
    intros Hin. apply in_map_iff in Hin as (x & Hx & Hxin). pose proof (H2 x Hxin). lia.
  - intros x y Hx Hy Hs Hg.
    apply in_app_or in Hx as [Hx | [<- | []]]; apply in_app_or in Hy as [Hy | [<- | []]].
    + apply H4; assumption.
    + simpl in Hs, Hg. pose proof (Hlt x Hx Hs). lia.
    + simpl in Hs, Hg. symmetry in Hs. pose proof (Hlt y Hy Hs). lia.
    + reflexivity.
Qed.

Lemma frontier_inv_fold p l st :
  frontier_inv st ->
  frontier_inv (fold_left (expand_successor St_eq_dec heuristic mk p (g p)) l st).
Proof.
  revert st. induction l as [|x l IH]; simpl; intros st H; [exact H|].
  apply IH, frontier_inv_succ, H.
Qed.

Lemma frontier_inv_step st st' :
  frontier_inv st -> step st = Continue st' -> frontier_inv st'.
Proof.
  intros H Hs.
  destruct (step_continue st st' Hs) as (e & rest & Hp & [[_ ->] | (_ & _ & ->)]).
  - eapply frontier_inv_after_pop; eauto.
  - apply frontier_inv_fold. eapply frontier_inv_after_pop; eauto.
Qed.

Lemma reachable_frontier_inv st : reachable st -> frontier_inv st.
Proof.
  intros Hr. induction Hr as [|st st' Hr IH Hs];
    [apply frontier_inv_init | eapply frontier_inv_step; eauto].
Qed.


Lemma first_step :
  step (init_search_state St_eq_dec task heuristic mk) =
  if goal_reached task init then Return (Some [])
  else Continue (expand St_eq_dec task heuristic mk (RootNode init)
                   (mkSearchState [] (cost_set St_eq_dec cost_empty init 0) 0)).
Proof.
  unfold init_search_state, make_root_node, heappush. cbn.
  destruct (Hshape (RootNode init) (heuristic (RootNode init)) 0) as [k Hk].
  rewrite Hk. unfold astar_step. simpl. unfold is_stale, cost_set.
  destruct (St_eq_dec init init); [|congruence]. simpl.
  destruct (goal_reached task init); reflexivity.
Qed.

(** ** Extra properties of the loop *)

(** The operators of a returned plan, applied from the initial state, lead
    to a goal state. *)
Theorem astar_search_plan_valid use_relaxed_plan fuel plan :
  astar_search St_eq_dec task heuristic mk use_relaxed_plan fuel = Done (Some plan) ->
  exists sg, runs init plan sg /\ goal_reached task sg = true.
Proof.
  unfold astar_search. intros H.
  destruct (astar_loop_steps _ _ _ H) as (st & Hr & Hs).
  destruct (step_return st _ Hs) as [[_ Hn] | (e & rest & Hp & _ & Hg & Hsome)];
    [discriminate|].
  injection Hsome as ->. exists (state (entry_node e)). split; [|exact Hg].
  apply node_ok_runs, (reachable_node_ok st Hr), (in_open_heappop st e rest Hp).
Qed.

(** The frontier entries have pairwise distinct tiebreakers, none above the
    counter [node_tiebreaker]. *)
Theorem frontier_tiebreakers_distinct st :
  reachable st ->
  NoDup (map entry_tiebreaker (open st)) /\
  forall x, In x (open st) -> entry_tiebreaker x <= node_tiebreaker st.
Proof.
  intros Hr. destruct (reachable_frontier_inv st Hr) as (_ & H2 & H3 & _). auto.
Qed.

(** The entry [heappop] takes is strictly below every entry left in the
    frontier, so the tuple comparison never reaches the node component and
    the choice does not depend on how the heap orders equal keys. *)
Theorem heappop_strict_min st e rest :
  reachable st -> heappop (open st) = Some (e, rest) ->
  forall x, In x rest -> entry_ltb e x = true.
Proof.
  intros Hr Hp x Hx.
  destruct (reachable_frontier_inv st Hr) as (_ & _ & Hnd & _).
  assert (Hne : entry_tiebreaker e <> entry_tiebreaker x).
  { pose proof (Permutation_map entry_tiebreaker (heappop_perm _ _ _ Hp)) as Hperm.
    apply (Permutation_NoDup Hperm) in Hnd. simpl in Hnd.
    inversion Hnd as [|b m Hnin Hnd2 Hbm]; subst. intros Heq. apply Hnin.
    rewrite Heq. apply in_map. exact Hx. }
  pose proof (heappop_least _ _ _ Hp x (heappop_rest _ _ _ _ Hp Hx)) as Hxe.
  destruct key_strict_total as (_ & _ & _ & Htot).
  rewrite entry_ltb_key in Hxe |- *.
  destruct (Htot (entry_key e) (entry_key x)) as [H | [H | H]];
    [exact H | | rewrite H in Hxe; discriminate].
  exfalso. apply Hne. destruct e as [[[fe he] te] ne], x as [[[fx hx] tx] nx].
  simpl in H |- *. congruence.
Qed.


(** Every value of the cost table, and every frontier node's [g], is the
    number of operators of an operator sequence from the initial state to the
    state; so no value is below the true distance. *)
Theorem cost_table_paths st :
  reachable st ->
  (forall s v, cost st s = Some v -> path init v s) /\
  (forall x, In x (open st) -> path init (g (entry_node x)) (state (entry_node x))).
Proof.
  intros Hr. destruct (reachable_basic_inv st Hr) as [Hopen Hcost].
  split; [exact Hcost|]. intros x Hx. apply (Hopen x Hx).
Qed.

(** When the initial state is a goal state, the first iteration returns the
    empty plan, whatever the heuristic value of the root. *)
Theorem astar_search_initial_goal use_relaxed_plan fuel :
  goal_reached task init = true -> 1 <= fuel ->
  astar_search St_eq_dec task heuristic mk use_relaxed_plan fuel = Done (Some []).
Proof.
  intros Hg Hf. destruct fuel as [|fuel]; [lia|].
  unfold astar_search. simpl. rewrite first_step, Hg. reflexivity.
Qed.

(** When the heuristic reports [Inf] for every child node, only the root is
    expanded: the search returns the empty plan if the initial state is a
    goal state and [None] otherwise, within two iterations. *)
Theorem astar_search_all_children_dead use_relaxed_plan fuel :
  (forall p op s, ext_is_inf (heuristic (ChildNode p op s)) = true) -> 2 <= fuel ->
  astar_search St_eq_dec task heuristic mk use_relaxed_plan fuel =
    Done (if goal_reached task init then Some [] else None).
Proof.
  intros Hdead Hf. destruct fuel as [|[|fuel]]; [lia | lia|].
  unfold astar_search. simpl. rewrite first_step.
  destruct (goal_reached task init); [reflexivity|].
  assert (Hfold : forall l st,
    fold_left (expand_successor St_eq_dec heuristic mk (RootNode init) 0) l st = st).
  { induction l as [|[op s] l IH]; intros st; simpl; [reflexivity|].
    unfold make_child_node. rewrite Hdead. apply IH. }
  unfold expand. simpl g. rewrite Hfold. destruct fuel; reflexivity.
Qed.

(** *** A* with an admissible heuristic *)

Section Optimal.

Hypothesis Hmk : forall n h t, mk n h t = ordered_node_astar n h t.

(** A shortest route [r 0 = init, ..., r d] to a goal state. *)
Variable d : nat.
Variable r : nat -> St.
Hypothesis Hr0 : r 0 = init.
Hypothesis Hedge : forall j, j < d -> exists op, In (op, r (S j)) (succs (r j)).
Hypothesis Hgoal : goal_reached task (r d) = true.
Hypothesis Hshortest : forall k s, path init k s -> goal_reached task s = true -> d <= k.
Hypothesis Hadm : forall n k sg, path (state n) k sg -> goal_reached task sg = true ->
  ext_le (heuristic n) (Fin k).

Lemma route_prefix j : j <= d -> path init j (r j).
Proof.
  induction j as [|j IH]; intros Hj; [rewrite Hr0; constructor|].
  destruct (Hedge j ltac:(lia)) as [op Hop].
  pose proof (path_snoc init j (r j) op (r (S j)) (IH ltac:(lia)) Hop) as H.
  rewrite Nat.add_1_r in H. exact H.
Qed.

Lemma route_suffix j k : j + k <= d -> path (r j) k (r (j + k)).
Proof.
  induction k as [|k IH]; intros Hjk; [rewrite Nat.add_0_r; constructor|].
  destruct (Hedge (j + k) ltac:(lia)) as [op Hop].
  replace (j + S k) with (S (j + k)) by lia.
  pose proof (path_snoc (r j) k (r (j + k)) op (r (S (j + k))) (IH ltac:(lia)) Hop) as H.
  rewrite Nat.add_1_r in H. exact H.
Qed.

Lemma route_to_goal j : j <= d -> path (r j) (d - j) (r d).
Proof.
  intros Hj. replace (r d) with (r (j + (d - j))) by (f_equal; lia).
  apply route_suffix. lia.
Qed.

Lemma route_dist j k : j <= d -> path init k (r j) -> j <= k.
Proof.
  intros Hj Hp. pose proof (Hshortest _ _ (path_app _ _ _ _ _ Hp (route_to_goal j Hj)) Hgoal).
  lia.
Qed.

(** Along the route, a state whose cost is already optimal has a live entry
    in the frontier or hands optimality on to the next state of the route. *)
Definition route_inv (st : @SearchState St Op) : Prop :=
  forall j, j <= d -> cost st (r j) = Some j ->
    (exists x, In x (open st) /\ state (entry_node x) = r j /\ g (entry_node x) = j) \/
    (j < d /\ cost st (r (S j)) = Some (S j)).

Lemma route_inv_init : route_inv (init_search_state St_eq_dec task heuristic mk).
Proof.
  intros j Hj Hc. left.
  unfold init_search_state, make_root_node, heappush in *. cbn in Hc |- *.
  unfold cost_set, cost_empty in Hc.
  destruct (St_eq_dec (r j) init) as [Heq | _]; [|discriminate].
  inversion Hc; subst j.
  exists (mk (RootNode init) (heuristic (RootNode init)) 0). split; [left; reflexivity|].
  destruct (Hshape (RootNode init) (heuristic (RootNode init)) 0) as [k Hk].
  rewrite Hk. simpl. auto.
Qed.

Lemma route_inv_step st st' :
  reachable st -> route_inv st -> step st = Continue st' -> route_inv st'.
Proof.
  intros Hr Hinv Hs j Hj Hc'.
  assert (Hr' : reachable st') by (econstructor; eauto).
  assert (Hopt : forall i c, i <= d -> cost st' (r i) = Some c -> c <= i -> c = i).
  { intros i c Hi Hc Hle. pose proof (proj2 (reachable_basic_inv st' Hr') _ _ Hc) as Hp.
    pose proof (route_dist i c Hi Hp). lia. }
  destruct (step_continue st st' Hs) as (e & rest & Hp & [[Hst ->] | (Hst & Hng & ->)]).
  - simpl in Hc'. destruct (Hinv j Hj Hc') as [(x & Hx & Hxs & Hxg) | H]; [left|right; exact H].
    destruct (heappop_in _ _ _ x Hp Hx) as [-> | Hx']; [|exists x; auto].
    unfold is_stale in Hst. rewrite Hxs, Hc', Hxg, Nat.ltb_irrefl in Hst. discriminate.
  - set (n := entry_node e) in *.
    set (st' := expand St_eq_dec task heuristic mk n (after_pop st rest)) in *.
    destruct (expand_exp_inv n (after_pop st rest)) as (new & Hop & _ & _).
    fold st' in Hop.
    destruct (cost_step st st' (r j) Hs) as [Hsame | (e' & rest' & op & Hp' & _ & _ & Hc & x & Hx & Hn)].
    + rewrite Hc' in Hsame. symmetry in Hsame.
      destruct (Hinv j Hj Hsame) as [(x & Hx & Hxs & Hxg) | (Hlt & Hnext)].
      * destruct (heappop_in _ _ _ x Hp Hx) as [-> | Hx'].
        -- right. assert (Hjd : j < d).
           { destruct (Nat.eq_dec j d) as [-> | ]; [|lia].
             fold n in Hxs. rewrite Hxs, Hgoal in Hng. discriminate. }
           split; [exact Hjd|].
           destruct (Hedge j Hjd) as [op Hop'].
           fold n in Hxs, Hxg. rewrite <- Hxs in Hop'.
           assert (Hfin : ext_is_inf (heuristic (ChildNode n op (r (S j)))) = false).
           { pose proof (Hadm (ChildNode n op (r (S j))) (d - S j) (r d)
               (route_to_goal (S j) Hjd) Hgoal) as Hh.
             destruct (heuristic (ChildNode n op (r (S j)))); [reflexivity | contradiction]. }
           destruct (expand_fold_succ_le n (succs (state n)) Hshape (succs (state n))
                       (after_pop st rest) op (r (S j)) (fun y Hy => Hy) Hop' Hfin)
             as (c & Hc & Hle).
           change (cost st' (r (S j)) = Some c) in Hc. rewrite Hxg in Hle.
           rewrite Hc. f_equal. apply (Hopt (S j)); [lia | exact Hc | lia].
        -- left. exists x. split; [rewrite Hop; apply in_or_app; left; exact Hx' | auto].
      * right. split; [exact Hlt|].
        destruct (cost_step_le st st' (r (S j)) (S j) Hs Hnext) as (c & Hc & Hle).
        rewrite Hc. f_equal. apply (Hopt (S j)); [lia | exact Hc | exact Hle].
    + left. exists x. split; [exact Hx|]. rewrite Hn. simpl. split; [reflexivity|].
      rewrite Hc' in Hc. inversion Hc. reflexivity.
Qed.

Lemma reachable_route_inv st : reachable st -> route_inv st.
Proof.
  intros Hr. induction Hr as [|st st' Hr IH Hs];
    [apply route_inv_init | eapply route_inv_step; eauto].
Qed.

Lemma cost_init_zero st : reachable st -> cost st init = Some 0.
Proof.
  intros Hr.
  assert (H0 : cost (init_search_state St_eq_dec task heuristic mk) init = Some 0).
  { cbn. unfold cost_set. destruct (St_eq_dec init init); [reflexivity | congruence]. }
  destruct (cost_steps_le _ _ _ _ Hr H0) as (c & Hc & Hle).
  rewrite Hc. f_equal. lia.
Qed.

(** The frontier always holds an entry for a state of the route with its
    optimal cost. *)
Lemma route_entry st :
  reachable st ->
  exists x j, In x (open st) /\ j <= d /\ state (entry_node x) = r j /\
              g (entry_node x) = j.
Proof.
  intros Hr. pose proof (reachable_route_inv st Hr) as Hinv.
  assert (H : forall k m, d - m = k -> m <= d -> cost st (r m) = Some m ->
            exists x j, In x (open st) /\ j <= d /\ state (entry_node x) = r j /\
                        g (entry_node x) = j).
  { induction k as [|k IH]; intros m Hk Hm Hc;
      (destruct (Hinv m Hm Hc) as [(x & Hx & Hxs & Hxg) | (Hlt & Hnext)];
       [exists x, m; auto|]).
    - lia.
    - apply (IH (S m)); [lia | lia | exact Hnext]. }
  apply (H (d - 0) 0); [reflexivity | lia | rewrite Hr0; apply cost_init_zero; exact Hr].
Qed.

(** A popped node has [g] at most [d]: its key [g + h] is at most the key of
    the route entry, which is at most [d] since [h] is admissible. *)
Lemma popped_g_le st e rest :
  reachable st -> heappop (open st) = Some (e, rest) -> g (entry_node e) <= d.
Proof.
  intros Hr Hp.
  destruct (route_entry st Hr) as (x & j & Hx & Hj & Hxs & Hxg).
  pose proof (heappop_least _ _ _ Hp x Hx) as Hlt.
  destruct (proj1 (reachable_basic_inv st Hr) x Hx) as (_ & _ & (tx & Hxe)).
  destruct (proj1 (reachable_basic_inv st Hr) e (in_open_heappop st e rest Hp))
    as (_ & _ & (te & Hee)).
  set (nx := entry_node x) in *. set (ne := entry_node e) in *.
  rewrite Hxe, Hee, !Hmk in Hlt. unfold ordered_node_astar, entry_ltb in Hlt.
  apply orb_false_iff in Hlt as [Hlt _].
  pose proof (Hadm nx (d - j) (r d) ltac:(rewrite Hxs; apply route_to_goal; exact Hj) Hgoal)
    as Hhx.
  rewrite Hxg in Hlt.
  destruct (heuristic nx) as [hx|]; [|contradiction].
  destruct (heuristic ne) as [he|]; simpl in Hlt, Hhx; [|discriminate].
  apply Nat.ltb_ge in Hlt. lia.
Qed.

Lemma length_extract_solution (n : @SearchNode St Op) :
  length (extract_solution n) = g n.
Proof.
  unfold extract_solution. rewrite length_rev.
  induction n as [s | p IH a s]; simpl; [reflexivity | rewrite IH; lia].
Qed.

Lemma optimal_result use_relaxed_plan fuel r0 :
  astar_search St_eq_dec task heuristic mk use_relaxed_plan fuel = Done r0 ->
  exists plan, r0 = Some plan /\ length plan = d.
Proof.
  unfold astar_search. intros H.
  destruct (astar_loop_steps _ _ _ H) as (st & Hr & Hs).
  destruct (step_return st r0 Hs) as [[Ho _] | (e & rest & Hp & _ & Hg & ->)].
  - destruct (route_entry st Hr) as (x & _ & Hx & _). rewrite Ho in Hx. contradiction.
  - eexists. split; [reflexivity|]. rewrite length_extract_solution.
    pose proof (popped_g_le st e rest Hr Hp).
    destruct (proj1 (reachable_basic_inv st Hr) e (in_open_heappop st e rest Hp))
      as (_ & Hpath & _).
    pose proof (Hshortest _ _ Hpath Hg). lia.
Qed.

Lemma optimal_terminates use_relaxed_plan :
  exists fuel r0,
    astar_search St_eq_dec task heuristic mk use_relaxed_plan fuel = Done r0.
Proof.
  unfold astar_search.
  apply (astar_loop_terminates reachable (measure (reach_upto (d + 1)))); [|constructor].
  intros st st' Hr Hs. split; [econstructor; eauto|].
  apply measure_step; [exact Hs|].
  intros s Hne.
  destruct (cost_change_succ st st' s Hs Hne) as (e & rest & op & Hp & _ & Hop).
  destruct (proj1 (reachable_basic_inv st Hr) e (in_open_heappop st e rest Hp))
    as (_ & Hpath & _).
  pose proof (popped_g_le st e rest Hr Hp).
  apply (reach_upto_spec _ (g (entry_node e) + 1)); [econstructor; eauto | lia].
Qed.


(** *** Weighted A* with an admissible heuristic *)

Variable w : positive.
Hypothesis Hmkw : forall n h t, mk n h t = ordered_node_weighted_astar w n h t.

(** A popped node has [g] at most [w * d]: its key [g + w * h] is at most
    the key [j + w * h] of the route entry, and [j + w * (d - j) <= w * d]. *)
Lemma popped_g_le_weighted st e rest :
  reachable st -> heappop (open st) = Some (e, rest) ->
  g (entry_node e) <= Pos.to_nat w * d.
Proof.
  intros Hr Hp.
  destruct (route_entry st Hr) as (x & j & Hx & Hj & Hxs & Hxg).
  pose proof (heappop_least _ _ _ Hp x Hx) as Hlt.
  destruct (proj1 (reachable_basic_inv st Hr) x Hx) as (_ & _ & (tx & Hxe)).
  destruct (proj1 (reachable_basic_inv st Hr) e (in_open_heappop st e rest Hp))
    as (_ & _ & (te & Hee)).
  set (nx := entry_node x) in *. set (ne := entry_node e) in *.
  rewrite Hxe, Hee, !Hmkw in Hlt. unfold ordered_node_weighted_astar, entry_ltb in Hlt.
  apply orb_false_iff in Hlt as [Hlt _].
  pose proof (Hadm nx (d - j) (r d) ltac:(rewrite Hxs; apply route_to_goal; exact Hj) Hgoal)
    as Hhx.
  rewrite Hxg in Hlt. pose proof (Pos2Nat.is_pos w) as Hw.
  destruct (heuristic nx) as [hx|]; [|contradiction].
  destruct (heuristic ne) as [he|]; simpl in Hlt, Hhx; [|discriminate].
  apply Nat.ltb_ge in Hlt. nia.
Qed.

Lemma weighted_result use_relaxed_plan fuel r0 :
  astar_search St_eq_dec task heuristic mk use_relaxed_plan fuel = Done r0 ->
  exists plan, r0 = Some plan /\ length plan <= Pos.to_nat w * d.
Proof.
  unfold astar_search. intros H.
  destruct (astar_loop_steps _ _ _ H) as (st & Hr & Hs).
  destruct (step_return st r0 Hs) as [[Ho _] | (e & rest & Hp & _ & _ & ->)].
  - destruct (route_entry st Hr) as (x & _ & Hx & _). rewrite Ho in Hx. contradiction.
  - eexists. split; [reflexivity|]. rewrite length_extract_solution.
    exact (popped_g_le_weighted st e rest Hr Hp).
Qed.

Lemma weighted_terminates use_relaxed_plan :
  exists fuel r0,
    astar_search St_eq_dec task heuristic mk use_relaxed_plan fuel = Done r0.
Proof.
  unfold astar_search.
  apply (astar_loop_terminates reachable
           (measure (reach_upto (Pos.to_nat w * d + 1)))); [|constructor].
  intros st st' Hr Hs. split; [econstructor; eauto|].
  apply measure_step; [exact Hs|].
  intros s Hne.
  destruct (cost_change_succ st st' s Hs Hne) as (e & rest & op & Hp & _ & Hop).
  destruct (proj1 (reachable_basic_inv st Hr) e (in_open_heappop st e rest Hp))
    as (_ & Hpath & _).
  pose proof (popped_g_le_weighted st e rest Hr Hp).
  apply (reach_upto_spec _ (g (entry_node e) + 1)); [econstructor; eauto | lia].
Qed.

End Optimal.

End Policy.

(** ** C1: optimality of A* *)

Lemma path_route s k s' :
  path s k s' ->
  exists r, r 0 = s /\ r k = s' /\
    forall j, j < k -> exists op, In (op, r (S j)) (succs (r j)).
Proof.
  intros Hp. induction Hp as [|k s1 op s2 Hp IH Hop].
  - exists (fun _ => s). split; [reflexivity|]. split; [reflexivity|]. intros j Hj; lia.
  - destruct IH as (r & Hr0 & Hrk & Hedge).
    exists (fun j => if Nat.eqb j (k + 1) then s2 else r j).
    split; [destruct (Nat.eqb_spec 0 (k + 1)); [lia | exact Hr0]|].
    split; [rewrite Nat.eqb_refl; reflexivity|].
    intros j Hj. destruct (Nat.eqb_spec (S j) (k + 1)) as [Hjk | Hjk];
      destruct (Nat.eqb_spec j (k + 1)); try lia.
    + exists op. replace j with k by lia. rewrite Hrk. exact Hop.
    + apply Hedge. lia.
Qed.

Lemma bool_least (Q : nat -> bool) k :
  Q k = true -> exists m, Q m = true /\ forall n, n < m -> Q n = false.
Proof.
  revert k. induction k as [k IH] using (well_founded_induction lt_wf). intros Hk.
  destruct (existsb Q (seq 0 k)) eqn:Hex.
  - apply existsb_exists in Hex as (n & Hn & HQn). apply in_seq in Hn.
    apply (IH n); [lia | exact HQn].
  - exists k. split; [exact Hk|]. intros n Hn.
    destruct (Q n) eqn:HQn; [|reflexivity].
    assert (existsb Q (seq 0 k) = true) by
      (apply existsb_exists; exists n; split; [apply in_seq; lia | exact HQn]).
    congruence.
Qed.

Lemma shortest_exists :
  (exists k sg, path init k sg /\ goal_reached task sg = true) ->
  exists d sg, path init d sg /\ goal_reached task sg = true /\
    forall k s, path init k s -> goal_reached task s = true -> d <= k.
Proof.
  intros (k & sg & Hp & Hg).
  set (Q := fun k => existsb (goal_reached task) (reach_exact k)).
  assert (HQ : forall k, Q k = true <-> exists s, path init k s /\ goal_reached task s = true).
  { intros k'. unfold Q. rewrite existsb_exists.
    split; intros (s & H1 & H2); exists s; rewrite reach_exact_spec in *; auto. }
  destruct (bool_least Q k (proj2 (HQ k) (ex_intro _ sg (conj Hp Hg)))) as (d & Hd & Hmin).
  destruct (proj1 (HQ d) Hd) as (sd & Hpd & Hgd).
  exists d, sd. split; [exact Hpd|]. split; [exact Hgd|].
  intros k' s Hps Hgs. destruct (Nat.le_gt_cases d k') as [H | H]; [exact H|].
  specialize (Hmin k' H). rewrite (proj2 (HQ k') (ex_intro _ s (conj Hps Hgs))) in Hmin.
  discriminate.
Qed.

Lemma ordered_node_astar_shape : policy_shape (@ordered_node_astar St Op).
Proof. intros n h t. eexists. reflexivity. Qed.

Lemma ordered_node_greedy_best_first_shape :
  policy_shape (@ordered_node_greedy_best_first St Op).
Proof. intros n h t. eexists. reflexivity. Qed.

Lemma ordered_node_weighted_astar_shape w :
  policy_shape (@ordered_node_weighted_astar St Op w).
Proof. intros n h t. eexists. reflexivity. Qed.

(** Claim C1: for a solvable task (some goal state is reachable) and a
    heuristic that never overestimates the number of operators from a node's
    state to a goal state, [astar_search] with [ordered_node_astar] returns a
    plan, and every plan it returns has the length of a shortest operator
    sequence from the initial state to a goal state.  Consistency of the
    heuristic is not needed. *)
Theorem astar_search_optimal :
  (forall n k sg, path (state n) k sg -> goal_reached task sg = true ->
     ext_le (heuristic n) (Fin k)) ->
  (exists k sg, path init k sg /\ goal_reached task sg = true) ->
  (exists fuel plan,
     astar_search St_eq_dec task heuristic ordered_node_astar false fuel = Done (Some plan)) /\
  (forall use_relaxed_plan fuel res,
     astar_search St_eq_dec task heuristic ordered_node_astar use_relaxed_plan fuel = Done res ->
     exists plan, res = Some plan /\
       (exists sg, path init (length plan) sg /\ goal_reached task sg = true) /\
       (forall k sg, path init k sg -> goal_reached task sg = true -> length plan <= k)).
Proof.
  intros Hadm Hsolv.
  destruct (shortest_exists Hsolv) as (d & sg & Hpd & Hgd & Hmin).
  destruct (path_route _ _ _ Hpd) as (r & Hr0 & Hrd & Hedge).
  assert (Hgoal : goal_reached task (r d) = true) by (rewrite Hrd; exact Hgd).
  pose proof (fun u fuel res => optimal_result ordered_node_astar ordered_node_astar_shape
                (fun _ _ _ => eq_refl) d r Hr0 Hedge Hgoal Hmin Hadm u fuel res) as Hres.
  split.
  - destruct (optimal_terminates ordered_node_astar ordered_node_astar_shape
                (fun _ _ _ => eq_refl) d r Hr0 Hedge Hgoal Hmin Hadm false)
      as (fuel & res & Hrun).
    destruct (Hres false fuel res Hrun) as (plan & -> & _).
    exists fuel, plan. exact Hrun.
  - intros u fuel res Hrun. destruct (Hres u fuel res Hrun) as (plan & -> & Hlen).
    exists plan. split; [reflexivity|]. rewrite Hlen. split; [exists sg; auto | exact Hmin].
Qed.


Lemma ordered_node_weighted_astar_1 (n : @SearchNode St Op) h t :
  ordered_node_weighted_astar 1 n h t = ordered_node_astar n h t.
Proof.
  destruct h as [x|]; unfold ordered_node_weighted_astar, ordered_node_astar;
    simpl; [rewrite Nat.add_0_r|]; reflexivity.
Qed.

(** ** Extra properties of the wrappers *)

(** Weighted A* with weight [w] and an admissible heuristic, on a solvable
    task, returns a plan, and every plan it returns has at most [w] times the
    number of operators of a shortest plan. *)
Theorem weighted_astar_suboptimality_bound (w : positive) :
  (forall n k sg, path (state n) k sg -> goal_reached task sg = true ->
     ext_le (heuristic n) (Fin k)) ->
  (exists k sg, path init k sg /\ goal_reached task sg = true) ->
  (exists fuel plan,
     weighted_astar_search St_eq_dec task heuristic (Some w) false fuel =
       Done (Some plan)) /\
  (forall use_relaxed_plan fuel res,
     weighted_astar_search St_eq_dec task heuristic (Some w) use_relaxed_plan fuel =
       Done res ->
     exists plan, res = Some plan /\
       forall k sg, path init k sg -> goal_reached task sg = true ->
         length plan <= Pos.to_nat w * k).
Proof.
  intros Hadm Hsolv.
  destruct (shortest_exists Hsolv) as (d & sg & Hpd & Hgd & Hmin).
  destruct (path_route _ _ _ Hpd) as (r & Hr0 & Hrd & Hedge).
  assert (Hgoal : goal_reached task (r d) = true) by (rewrite Hrd; exact Hgd).
  pose proof (fun u fuel res => weighted_result (ordered_node_weighted_astar w)
                (ordered_node_weighted_astar_shape w) d r Hr0 Hedge Hgoal Hmin Hadm
                w (fun _ _ _ => eq_refl) u fuel res) as Hres.
  split.
  - destruct (weighted_terminates (ordered_node_weighted_astar w)
                (ordered_node_weighted_astar_shape w) d r Hr0 Hedge Hgoal Hmin Hadm
                w (fun _ _ _ => eq_refl) false) as (fuel & res & Hrun).
    destruct (Hres false fuel res Hrun) as (plan & -> & _).
    exists fuel, plan. exact Hrun.
  - intros u fuel res Hrun. destruct (Hres u fuel res Hrun) as (plan & -> & Hlen).
    exists plan. split; [reflexivity|]. intros k sg' Hp Hg.
    pose proof (Hmin k sg' Hp Hg). nia.
Qed.

(** Weighted A* with weight [1] is A*: it returns what [astar_search] with
    [ordered_node_astar] returns. *)
Theorem weighted_astar_weight_1 use_relaxed_plan fuel :
  weighted_astar_search St_eq_dec task heuristic (Some 1%positive) use_relaxed_plan fuel =
  astar_search St_eq_dec task heuristic ordered_node_astar use_relaxed_plan fuel.
Proof.
  apply astar_search_ext. apply ordered_node_weighted_astar_1.
Qed.

End Runs.

(** ** Concrete tasks *)

(** A chain [0 -> 1 -> ... -> 5] with goal [5] and the exact distance as
    heuristic. *)
Definition chain : @Task nat nat :=
  mkTask 0 (fun s => Nat.eqb s 5)
    (fun s => if Nat.ltb s 5 then [(s, S s)] else []).

Definition chain_h (n : @SearchNode nat nat) : ext := Fin (5 - state n).

(** The same chain with state [3] reported as a dead end. *)
Definition chain_dead_h (n : @SearchNode nat nat) : ext :=
  if Nat.eqb (state n) 3 then Inf else Fin 0.

(** Two routes to state [3]: the greedy order finds the longer one first. *)
Definition detour : @Task nat nat :=
  mkTask 0 (fun s => Nat.eqb s 9)
    (fun s => match s with
              | 0 => [(1, 1); (2, 2)]
              | 1 => [(3, 3)]
              | 2 => [(4, 4)]
              | 4 => [(3, 3)]
              | _ => []
              end).

Definition detour_h (n : @SearchNode nat nat) : ext :=
  match state n with
  | 0 => Fin 3
  | 1 => Fin 1
  | 3 => Fin 5
  | _ => Fin 0
  end.

(** A cycle [0 -> 1 -> 2 -> 0] with self-loops and no goal state. *)
Definition cycle : @Task nat nat :=
  mkTask 0 (fun _ => false) (fun s => [(0, S s mod 3); (1, s)]).

Definition cycle_h (n : @SearchNode nat nat) : ext := Fin (state n).

(** The state of the [detour] search after four iterations under the greedy
    order: both entries for state [3] are in the frontier. *)
Definition detour_st4 : @SearchState nat nat :=
  run_steps Nat.eq_dec detour detour_h ordered_node_greedy_best_first 4
    (init_search_state Nat.eq_dec detour detour_h ordered_node_greedy_best_first).

(** The entry popped next from [detour_st4], for the node [0 -> 2 -> 4 -> 3]
    with [g = 3], and the rest of the frontier. *)
Definition detour_pop4 : @Entry nat nat :=
  (Fin 5, Fin 5, 4, ChildNode (ChildNode (ChildNode (RootNode 0) 2 2) 4 4) 3 3).

Definition detour_rest4 : list (@Entry nat nat) :=
  [(Fin 5, Fin 5, 5, ChildNode (ChildNode (RootNode 0) 1 1) 3 3)].

Lemma chain_path s k s' : path chain s k s' -> s' = s + k.
Proof.
  intros Hp. induction Hp as [|k s1 op s2 Hp IH Hop]; [lia|].
  simpl in Hop. destruct (Nat.ltb s1 5); simpl in Hop; [|contradiction].
  destruct Hop as [Hop | []]. inversion Hop; subst. lia.
Qed.

Lemma chain_h_admissible n k sg :
  path chain (state n) k sg -> goal_reached chain sg = true ->
  ext_le (chain_h n) (Fin k).
Proof.
  intros Hp Hg. apply chain_path in Hp. simpl in Hg. apply Nat.eqb_eq in Hg.
  unfold chain_h, ext_le. lia.
Qed.

Lemma chain_solvable :
  exists k sg, path chain (initial_state chain) k sg /\ goal_reached chain sg = true.
Proof.
  exists 5, 5. split; [|reflexivity].
  apply (proj2 (reach_exact_spec chain 5 5)). vm_compute. tauto.
Qed.

(** A task whose initial state [0] is a goal state, and the heuristic that
    reports [Inf] everywhere. *)
Definition at_goal : @Task nat nat := mkTask 0 (fun s => Nat.eqb s 0) (fun _ => []).

Definition inf_h (n : @SearchNode nat nat) : ext := Inf.

(** ** C8: the ordering policies and the frontier order *)

(** Claim C8: each policy maps [(node, h, tiebreaker)] to the entry
    [(key, h, tiebreaker, node)] with key [g + h] (A* ), [g + weight * h]
    (weighted A* ) and [h] (greedy best-first); entries are compared
    lexicographically by key, then [h], then tiebreaker, and [heappop]
    removes an entry that no other entry of the frontier is below. *)
Theorem ordering_policies {St Op : Type} (n : @SearchNode St Op) (h : ext)
    (t : nat) (w : positive) :
  ordered_node_astar n h t = (ext_add (Fin (g n)) h, h, t, n) /\
  ordered_node_weighted_astar w n h t =
    (ext_add (Fin (g n)) (ext_scale w h), h, t, n) /\
  ordered_node_greedy_best_first n h t = (h, h, t, n) /\
  (forall (k1 h1 : ext) (t1 : nat) (n1 : @SearchNode St Op)
          (k2 h2 : ext) (t2 : nat) (n2 : @SearchNode St Op),
     entry_ltb (k1, h1, t1, n1) (k2, h2, t2, n2) = true <->
     ext_ltb k1 k2 = true \/
     (k1 = k2 /\ (ext_ltb h1 h2 = true \/ (h1 = h2 /\ t1 < t2)))) /\
  (forall l : list (@Entry St Op), heappop l = None <-> l = []) /\
  (forall (l : list (@Entry St Op)) e rest, heappop l = Some (e, rest) ->
     Permutation l (e :: rest) /\ forall x, In x l -> entry_ltb x e = false).
Proof.
  split; [reflexivity|]. split; [reflexivity|]. split; [reflexivity|].
  split; [|split; [apply heappop_None|]].
  - intros k1 h1 t1 n1 k2 h2 t2 n2. unfold entry_ltb.
    rewrite !orb_true_iff, !andb_true_iff, !orb_true_iff, !andb_true_iff,
      Nat.ltb_lt, !(proj1 ext_strict_total). tauto.
  - intros l e rest Hp. split; [apply heappop_perm | apply (heappop_least l e rest)]; exact Hp.
Qed.

(** ** C9: the [use_relaxed_plan] flag *)

(** Claim C9: [astar_search], [greedy_best_first_search] and
    [weighted_astar_search] give the same result for [use_relaxed_plan]
    true and false. *)
Theorem use_relaxed_plan_ignored {St Op : Type}
    (St_eq_dec : forall a b : St, {a = b} + {a <> b}) (task : @Task St Op)
    (heuristic : @SearchNode St Op -> ext)
    (mk : @SearchNode St Op -> ext -> nat -> @Entry St Op)
    (weight : option positive) (fuel : nat) :
  astar_search St_eq_dec task heuristic mk true fuel =
    astar_search St_eq_dec task heuristic mk false fuel /\
  greedy_best_first_search St_eq_dec task heuristic true fuel =
    greedy_best_first_search St_eq_dec task heuristic false fuel /\
  weighted_astar_search St_eq_dec task heuristic weight true fuel =
    weighted_astar_search St_eq_dec task heuristic weight false fuel.
Proof. repeat split. Qed.

(** ** C10: the default weight *)

(** Claim C10: [weighted_astar_search] without a weight is [astar_search]
    with [ordered_node_weighted_astar 5], whose key is [g + 5 * h]. *)
Theorem weighted_astar_default_weight {St Op : Type}
    (St_eq_dec : forall a b : St, {a = b} + {a <> b}) (task : @Task St Op)
    (heuristic : @SearchNode St Op -> ext) (use_relaxed_plan : bool)
    (fuel : nat) :
  weighted_astar_search St_eq_dec task heuristic None use_relaxed_plan fuel =
    astar_search St_eq_dec task heuristic (ordered_node_weighted_astar 5)
      use_relaxed_plan fuel /\
  (forall (n : @SearchNode St Op) h t, ordered_node_weighted_astar 5 n h t =
     (ext_add (Fin (g n)) (ext_scale 5 h), h, t, n)).
Proof. split; reflexivity. Qed.

(** ** Instances of the theorems *)

(** C1 on [chain]: A* finds a plan of the shortest length, [5]. *)
Lemma astar_search_optimal_witness :
  exists fuel plan,
    astar_search Nat.eq_dec chain chain_h ordered_node_astar false fuel =
      Done (Some plan) /\ length plan = 5.
Proof.
  destruct (@astar_search_optimal nat nat Nat.eq_dec chain chain_h
              chain_h_admissible chain_solvable) as [(fuel & plan & Hrun) Hall].
  exists fuel, plan. split; [exact Hrun|].
  destruct (Hall false fuel (Some plan) Hrun) as (plan' & Heq & (sg & Hp & Hg) & Hmin).
  injection Heq as <-. apply chain_path in Hp. simpl in Hp, Hg.
  apply Nat.eqb_eq in Hg. lia.
Defined.

(** C2 on [cycle], whose states are [0], [1] and [2], under the greedy order. *)
Lemma astar_search_terminates_witness :
  exists fuel r,
    astar_search Nat.eq_dec cycle cycle_h ordered_node_greedy_best_first false fuel =
      Done r.
Proof.
  apply (@astar_search_terminates nat nat Nat.eq_dec cycle cycle_h
           ordered_node_greedy_best_first ordered_node_greedy_best_first_shape
           [0; 1; 2] false).
  - simpl. auto.
  - intros s op s' Hs Hop. simpl in Hs.
    destruct Hs as [<- | [<- | [<- | []]]]; simpl in Hop;
      destruct Hop as [Hop | [Hop | []]]; inversion Hop; simpl; auto.
Defined.

(** C3 on [detour_st4]: the popped entry for state [3] has [g = 3] while the
    table holds [2], and it is discarded. *)
Lemma staleness_check_witness :
  astar_step Nat.eq_dec detour detour_h ordered_node_greedy_best_first detour_st4 =
    Continue (after_pop detour_st4 detour_rest4).
Proof.
  apply (proj1 (proj2 (@staleness_check nat nat Nat.eq_dec detour detour_h
           ordered_node_greedy_best_first ordered_node_greedy_best_first_shape
           detour_st4 detour_pop4 detour_rest4
           (run_steps_reachable Nat.eq_dec detour detour_h
              ordered_node_greedy_best_first 4 _ (steps_refl _ _ _ _ _))
           ltac:(vm_compute; reflexivity)))).
  vm_compute. reflexivity.
Defined.

(** C4 on [detour_st4]: the table holds [2] for state [3], the [g] of a node
    pushed for it. *)
Lemma cost_table_min_witness :
  exists st0 x,
    reachable Nat.eq_dec detour detour_h ordered_node_greedy_best_first st0 /\
    steps Nat.eq_dec detour detour_h ordered_node_greedy_best_first st0 detour_st4 /\
    In x (open st0) /\ state (entry_node x) = 3 /\ g (entry_node x) = 2.
Proof.
  apply (proj1 (proj1 (@cost_table_min nat nat Nat.eq_dec detour detour_h
           ordered_node_greedy_best_first ordered_node_greedy_best_first_shape
           detour_st4
           (run_steps_reachable Nat.eq_dec detour detour_h
              ordered_node_greedy_best_first 4 _ (steps_refl _ _ _ _ _)))
           3 2 ltac:(vm_compute; reflexivity))).
Defined.

(** C6 on [chain] with state [3] a dead end: after ten iterations state [3]
    is not in the table. *)
Lemma dead_end_pruned_witness :
  state_cost (run_steps Nat.eq_dec chain chain_dead_h ordered_node_astar 10
    (init_search_state Nat.eq_dec chain chain_dead_h ordered_node_astar)) 3 = None.
Proof.
  apply (proj1 (proj2 (@dead_end_pruned nat nat Nat.eq_dec chain chain_dead_h
           ordered_node_astar ordered_node_astar_shape) 3
           ltac:(simpl; discriminate) (fun p op => eq_refl) _
           (run_steps_reachable Nat.eq_dec chain chain_dead_h
              ordered_node_astar 10 _ (steps_refl _ _ _ _ _)))).
Defined.

(** C7 on [chain] with state [3] a dead end: the search returns [None] from
    an empty frontier. *)
Lemma astar_search_none_iff_witness :
  exists st, reachable Nat.eq_dec chain chain_dead_h ordered_node_astar st /\
    open st = [].
Proof.
  destruct (@astar_search_none_iff nat nat Nat.eq_dec chain chain_dead_h
              ordered_node_astar ordered_node_astar_shape false 20 None
              ltac:(vm_compute; reflexivity)) as [[Hnone _] _].
  destruct (Hnone eq_refl) as (st & Hr & Ho & _).
  exists st. split; [exact Hr | exact Ho].
Defined.

(** Extra properties on the concrete tasks. *)

Lemma astar_search_plan_valid_witness :
  exists sg, runs chain (initial_state chain) [0; 1; 2; 3; 4] sg /\
    goal_reached chain sg = true.
Proof.
  apply (@astar_search_plan_valid nat nat Nat.eq_dec chain chain_h ordered_node_astar
           ordered_node_astar_shape false 20 [0; 1; 2; 3; 4]).
  vm_compute. reflexivity.
Defined.

Lemma frontier_tiebreakers_distinct_witness :
  NoDup (map entry_tiebreaker (open detour_st4)).
Proof.
  apply (proj1 (@frontier_tiebreakers_distinct nat nat Nat.eq_dec detour detour_h
           ordered_node_greedy_best_first ordered_node_greedy_best_first_shape
           detour_st4
           (run_steps_reachable Nat.eq_dec detour detour_h
              ordered_node_greedy_best_first 4 _ (steps_refl _ _ _ _ _)))).
Defined.

Lemma heappop_strict_min_witness :
  entry_ltb detour_pop4 (hd detour_pop4 detour_rest4) = true.
Proof.
  apply (@heappop_strict_min nat nat Nat.eq_dec detour detour_h
           ordered_node_greedy_best_first ordered_node_greedy_best_first_shape
           detour_st4 detour_pop4 detour_rest4
           (run_steps_reachable Nat.eq_dec detour detour_h
              ordered_node_greedy_best_first 4 _ (steps_refl _ _ _ _ _))
           ltac:(vm_compute; reflexivity)).
  simpl. left. reflexivity.
Defined.


Lemma cost_table_paths_witness : path detour (initial_state detour) 2 3.
Proof.
  apply (proj1 (@cost_table_paths nat nat Nat.eq_dec detour detour_h
           ordered_node_greedy_best_first ordered_node_greedy_best_first_shape
           detour_st4
           (run_steps_reachable Nat.eq_dec detour detour_h
              ordered_node_greedy_best_first 4 _ (steps_refl _ _ _ _ _)))).
  vm_compute. reflexivity.
Defined.

Lemma astar_search_initial_goal_witness :
  astar_search Nat.eq_dec at_goal inf_h ordered_node_astar false 1 = Done (Some []).
Proof.
  apply (@astar_search_initial_goal nat nat Nat.eq_dec at_goal inf_h ordered_node_astar
           ordered_node_astar_shape false 1); [reflexivity | lia].
Defined.

Lemma astar_search_all_children_dead_witness :
  astar_search Nat.eq_dec chain inf_h ordered_node_astar false 2 = Done None.
Proof.
  exact (@astar_search_all_children_dead nat nat Nat.eq_dec chain inf_h ordered_node_astar
           ordered_node_astar_shape false 2 (fun _ _ _ => eq_refl) ltac:(lia)).
Defined.

Lemma weighted_astar_suboptimality_bound_witness :
  exists fuel plan,
    weighted_astar_search Nat.eq_dec chain chain_h (Some 2%positive) false fuel =
      Done (Some plan) /\ length plan <= 10.
Proof.
  destruct (@weighted_astar_suboptimality_bound nat nat Nat.eq_dec chain chain_h 2
              chain_h_admissible chain_solvable) as [(fuel & plan & Hrun) Hall].
  exists fuel, plan. split; [exact Hrun|].
  destruct (Hall false fuel (Some plan) Hrun) as (plan' & Heq & Hb).
  injection Heq as <-. apply (Hb 5 5); [|reflexivity].
  apply (proj2 (reach_exact_spec chain 5 5)). vm_compute. tauto.
Defined.
